(** * FullStack-RAG: ingestion (backend/preprocess.js) and query (backend/index.js)

    A shallow embedding of the two pipelines of the repository and the
    properties its specification states about them.

    - [Js]      : JavaScript strings as sequences of UTF-16 code units and the
                  string methods the code calls.
    - [Eff]     : the effects of the code (remote calls, index reads and writes,
                  sleeps) as a state-and-exception monad over an event trace,
                  the answers of the outside world given by an [env].
    - [Ingest]  : backend/preprocess.js.
    - [Query]   : backend/index.js.

    Console output is not modelled: no property below is about it. *)

From Stdlib Require Import ZArith NArith List String Ascii Floats Lia.
From Stdlib Require Import DecimalString DecimalNat.
From stdpp Require Import base option list gmap strings.
From stdpp Require Import sorting.

Local Open Scope N_scope.
#[local] Set Warnings "-inexact-float".

(** ** JavaScript strings *)

Module Js.

(** A string is its sequence of UTF-16 code units, so that [length],
    [substring] and indices count what JavaScript counts. *)
Definition jsstring : Type := list N.

(** An ASCII literal of the source, as code units. *)
Definition lit (s : string) : jsstring :=
  (λ a, N_of_ascii a) <$> list_ascii_of_string s.

(** Decimal rendering of a non-negative integer, as in [`${n}`]. *)
Definition of_nat (n : nat) : jsstring :=
  lit (NilZero.string_of_uint (Nat.to_uint n)).

(** [s.startsWith(p)] *)
Fixpoint startsWith (p s : jsstring) : bool :=
  match p, s with
  | [], _ => true
  | _ :: _, [] => false
  | a :: p', b :: s' => if N.eqb a b then startsWith p' s' else false
  end.

(** [s.endsWith(p)] *)
Definition endsWith (p s : jsstring) : bool :=
  startsWith (rev p) (rev s).

(** [s.includes(p)] *)
Fixpoint includes (p s : jsstring) : bool :=
  if startsWith p s then true
  else match s with
       | [] => false
       | _ :: s' => includes p s'
       end.

(** [s.substring(0, n)] *)
Definition substring0 (n : nat) (s : jsstring) : jsstring := take n s.

(** White space and line terminators, the code units [trim] strips. *)
Definition isWhiteSpace (c : N) : bool :=
  (9 <=? c) && (c <=? 13) || (c =? 32) || (c =? 160) || (c =? 5760)
  || (8192 <=? c) && (c <=? 8202) || (c =? 8232) || (c =? 8233)
  || (c =? 8239) || (c =? 8287) || (c =? 12288) || (c =? 65279).

Fixpoint trimStart (s : jsstring) : jsstring :=
  match s with
  | [] => []
  | c :: s' => if isWhiteSpace c then trimStart s' else s
  end.

Definition trimEnd (s : jsstring) : jsstring := rev (trimStart (rev s)).

(** [s.trim()] *)
Definition trim (s : jsstring) : jsstring := trimEnd (trimStart s).

(** [s.split(sep)] for a non-empty literal separator. [skip] counts the
    code units of a separator just found that are still to be passed over,
    [cur] holds the current piece in reverse. *)
Fixpoint split_go (sep s : jsstring) (skip : nat) (cur : jsstring)
  : list jsstring :=
  match s with
  | [] => [rev cur]
  | c :: s' =>
      match skip with
      | S k => split_go sep s' k cur
      | O =>
          if startsWith sep s
          then rev cur :: split_go sep s' (length sep - 1) []
          else split_go sep s' 0 (c :: cur)
      end
  end.

Definition split (sep s : jsstring) : list jsstring := split_go sep s 0 [].

(** [s.split(/[...]+/)]: the separators are the maximal runs of code units
    of the class [cls]. *)
Fixpoint splitRuns_go (cls : N → bool) (s : jsstring) (inRun : bool)
  (cur : jsstring) : list jsstring :=
  match s with
  | [] => [rev cur]
  | c :: s' =>
      if cls c
      then if inRun then splitRuns_go cls s' true []
           else rev cur :: splitRuns_go cls s' true []
      else splitRuns_go cls s' false (c :: cur)
  end.

Definition splitRuns (cls : N → bool) (s : jsstring) : list jsstring :=
  splitRuns_go cls s false [].

(** [s.replace(p, r)] for a literal pattern: the first occurrence only.
    [skip] as in [split_go]; [done] is set once the occurrence is replaced. *)
Fixpoint replace_go (p r s : jsstring) (skip : nat) (done : bool) : jsstring :=
  match s with
  | [] => []
  | c :: s' =>
      match skip with
      | S k => replace_go p r s' k done
      | O =>
          if negb done && startsWith p s
          then r ++ replace_go p r s' (length p - 1) true
          else c :: replace_go p r s' 0 done
      end
  end.

Definition replace (p r s : jsstring) : jsstring :=
  match p with
  | [] => r ++ s
  | _ => replace_go p r s 0 false
  end.

(** [s.replace(/c/g, r)] for a one-character pattern. *)
Definition replaceAllChar (c : N) (r : jsstring) (s : jsstring) : jsstring :=
  s ≫= (λ x, if N.eqb x c then r else [x]).

(** [s.toLowerCase()] on the letters A-Z; other code units are kept.  (The
    full Unicode mapping changes further letters, none of them into an
    ASCII letter or a dot.) *)
Definition toLowerCase (s : jsstring) : jsstring :=
  (λ c, if (65 <=? c) && (c <=? 90) then c + 32 else c) <$> s.

Definition isDigit (c : N) : bool := (48 <=? c) && (c <=? 57).

Fixpoint takeWhile (p : N → bool) (s : jsstring) : jsstring :=
  match s with
  | [] => []
  | c :: s' => if p c then c :: takeWhile p s' else []
  end.

Fixpoint dropWhile (p : N → bool) (s : jsstring) : jsstring :=
  match s with
  | [] => []
  | c :: s' => if p c then dropWhile p s' else s
  end.

End Js.

Import Js.

(** ** Values, effects and the outside world *)

Module Eff.

(** The JavaScript values the code inspects. A number is a double. An object
    or array is kept as what the code can observe of it: it is truthy, its
    [typeof] is ['object'], and [String(value)] gives [repr]. *)
Inductive jsval :=
| VUndefined
| VNull
| VBool (b : bool)
| VNum (x : float)
| VStr (s : jsstring)
| VObject (repr : jsstring).

Definition isNaN (x : float) : bool := negb (PrimFloat.eqb x x).

(** ToBoolean *)
Definition truthy (v : jsval) : bool :=
  match v with
  | VUndefined | VNull => false
  | VBool b => b
  | VNum x => negb (PrimFloat.eqb x 0 || isNaN x)
  | VStr s => negb (bool_decide (s = []))
  | VObject _ => true
  end.

(** An array index or a length, as a JavaScript number. *)
Definition num (n : nat) : float := PrimFloat.of_uint63 (Uint63.of_Z (Z.of_nat n)).

(** A thrown [Error]: its message and, for an HTTP error of axios,
    [error.response.status]. *)
Record error := Error { message : jsstring; status : option nat }.

Inductive result (A : Type) :=
| Ok (a : A)
| Throw (e : error).
Arguments Ok {A} a.
Arguments Throw {A} e.

Definition embedding : Type := list float.

(** The body of an [embedContent] response: [data.embedding] may be missing,
    and when present [data.embedding.values] may be undefined. *)
Inductive embedReply :=
| NoEmbeddingField
| EmbeddingField (values : option embedding).

(** A metadata object read back from the index, observed through its
    [title] only ([None] when the field is undefined). *)
Record storedMetadata := StoredMetadata { title : option jsstring }.

(** What [collection.query] resolves to, for the single query embedding:
    [documents[0]] (possibly absent), [metadatas[0]] (an entry may be null)
    and [distances[0]]. *)
Record queryResults := QueryResults {
  documents0 : option (list jsstring);
  metadatas0 : list (option storedMetadata);
  distances0 : list float
}.

(** A document of the text splitter. *)
Record document := Document {
  pageContent : jsstring;
  metadata : gmap string jsval
}.

(** Everything the code does to the outside world, with the world's answer. *)
Inductive event :=
| EmbedCall (text : jsstring) (reply : result embedReply)
| GenerateCall (model prompt : jsstring) (reply : result (option jsstring))
| IndexQuery (queryEmbedding : option embedding) (nResults : nat)
    (reply : result queryResults)
| IndexAdd (ids : list jsstring) (embeddings : list (option embedding))
    (documents : list jsstring) (metadatas : list (gmap string jsval))
    (reply : result unit)
| ParsePdf (filePath : jsstring) (reply : result (option jsstring))
| Now (iso : jsstring)
| Sleep (ms : nat).

Definition trace : Type := list event.

(** The outside world: configuration, and for each remote operation the
    answer it gives after a given history. *)
Record env := Env {
  GEMINI_API_KEY : option jsstring;
  embedContent : trace → jsstring → result embedReply;
  generateContent : trace → jsstring → jsstring → result (option jsstring);
  collectionQuery : trace → option embedding → nat → result queryResults;
  collectionAdd : trace → list jsstring → list (option embedding) →
                  list jsstring → list (gmap string jsval) → result unit;
  pdfParse : trace → jsstring → result (option jsstring);
  createDocuments : jsstring → gmap string jsval → list document;
  toISOString : trace → jsstring;
  jwtVerify : jsstring → bool
}.

(** An async function: from the history so far to a value or an exception,
    and the extended history. *)
Definition M (A : Type) : Type := trace → result A * trace.

Definition ret {A} (a : A) : M A := λ t, (Ok a, t).

Definition bind {A B} (m : M A) (k : A → M B) : M B :=
  λ t, match m t with
       | (Ok a, t') => k a t'
       | (Throw e, t') => (Throw e, t')
       end.

Definition throw {A} (e : error) : M A := λ t, (Throw e, t).

(** [try { body } catch (error) { handler }] *)
Definition try_catch {A} (body : M A) (handler : error → M A) : M A :=
  λ t, match body t with
       | (Ok a, t') => (Ok a, t')
       | (Throw e, t') => handler e t'
       end.

(** [if (c) { m }] *)
Definition when (c : bool) (m : M unit) : M unit := if c then m else ret ().

End Eff.

Import Eff.

#[global] Instance M_ret : MRet M := @ret.
#[global] Instance M_bind : MBind M := λ A B k m, bind m k.

Section primitives.
Context (E : env).

(** A remote operation: the world answers, the exchange is recorded, and a
    failure is raised as an exception. *)
Definition remote {A} (answer : trace → result A) (ev : result A → event)
  : M A :=
  λ t, let r := answer t in (r, t ++ [ev r]).

Definition axiosEmbed (text : jsstring) : M embedReply :=
  remote (λ t, embedContent E t text) (EmbedCall text).

Definition axiosGenerate (model prompt : jsstring) : M (option jsstring) :=
  remote (λ t, generateContent E t model prompt) (GenerateCall model prompt).

Definition collection_query (q : option embedding) (n : nat) : M queryResults :=
  remote (λ t, collectionQuery E t q n) (IndexQuery q n).

Definition collection_add (ids : list jsstring) (embs : list (option embedding))
  (docs : list jsstring) (metas : list (gmap string jsval)) : M unit :=
  remote (λ t, collectionAdd E t ids embs docs metas) (IndexAdd ids embs docs metas).

(** [pdfParse(fs.readFileSync(filePath))], as the [text] of its result. *)
Definition parsePdf (filePath : jsstring) : M (option jsstring) :=
  remote (λ t, pdfParse E t filePath) (ParsePdf filePath).

(** [new Date().toISOString()] *)
Definition now : M jsstring :=
  λ t, let iso := toISOString E t in (Ok iso, t ++ [Now iso]).

Definition sleep (ms : nat) : M unit := λ t, (Ok (), t ++ [Sleep ms]).
End primitives.

(** [array.map(callback)] for a callback with effects: it runs on the
    elements in order, [i] being the index of the first of them. *)
Fixpoint imapM {A B} (f : nat → A → M B) (i : nat) (l : list A) : M (list B) :=
  match l with
  | [] => mret []
  | x :: l' => y ← f i x; ys ← imapM f (S i) l'; mret (y :: ys)
  end.

(** The values [i] of [for (let i = 0; i < n; i += step)]. *)
Definition strides (step n : nat) : list nat :=
  List.filter (λ i, Nat.eqb (i mod step) 0) (seq 0 n).

(** The credential test of both programs:
    [!KEY || KEY.includes('your-actual-gemini-api-key-here')]. *)
Definition keyUnusable (key : option jsstring) : bool :=
  match key with
  | None => true
  | Some k => negb (truthy (VStr k)) || includes (lit "your-actual-gemini-api-key-here") k
  end.

(** ** backend/preprocess.js *)

Module Ingest.

Definition BATCH_SIZE : nat := 2.
Definition CHUNK_BATCH_SIZE : nat := 10.
Definition MAX_RETRIES : nat := 3.
Definition MAX_PDFS : nat := 5.

Definition cleanValue (value : jsval) : option jsval :=
  match value with
  | VUndefined | VNull => None
  | VStr _ | VNum _ | VBool _ => Some value
  | VObject repr => Some (VStr repr)
  end.

Definition cleanMetadata (metadata : gmap string jsval) : gmap string jsval :=
  omap cleanValue metadata.

(** [fileName.replace('.PDF', '').replace(/_/g, ' ')] *)
Definition titleOf (fileName : jsstring) : jsstring :=
  replaceAllChar 95 (lit " ") (replace (lit ".PDF") [] fileName).

(** [`${fileName}_chunk_${index}`] *)
Definition chunkId (fileName : jsstring) (index : nat) : jsstring :=
  fileName ++ lit "_chunk_" ++ of_nat index.

(** The filter of [processPDFs] on the directory listing:
    [f.toLowerCase().endsWith('.pdf')]. *)
Definition isCandidate (f : jsstring) : bool :=
  endsWith (lit ".pdf") (toLowerCase f).

Section with_env.
Context (E : env).

(** The [try] block of [generateEmbedding]. *)
Definition embedRequest (text : jsstring) : M (option embedding) :=
  if keyUnusable (GEMINI_API_KEY E)
  then throw (Error (lit "Valid GEMINI_API_KEY is required for manual embeddings") None)
  else
    response ← axiosEmbed E text;
    match response with
    | NoEmbeddingField =>
        throw (Error (lit "Cannot read properties of undefined (reading 'values')") None)
    | EmbeddingField values => mret values
    end.

(** [generateEmbedding(text, retries)]; [left] is [MAX_RETRIES - retries],
    so that [retries < MAX_RETRIES] is [left] being a successor. *)
Fixpoint generateEmbedding_from (left : nat) (text : jsstring) (retries : nat)
  : M (option embedding) :=
  try_catch (embedRequest text)
    (λ error,
       match left with
       | S left' =>
           sleep (1000 * (retries + 1));;
           generateEmbedding_from left' text (retries + 1)
       | O => throw error
       end).

Definition generateEmbedding (text : jsstring) (retries : nat)
  : M (option embedding) :=
  generateEmbedding_from (MAX_RETRIES - retries) text retries.

(** The loop [for (let i = 0; i < documents.length; i++)] of
    [processChunkBatch], from index [i] on; [n] is [documents.length]. *)
Fixpoint embedLoop (n i : nat) (documents : list jsstring)
  (embeddings : list (option embedding)) : M (list (option embedding)) :=
  match documents with
  | [] => mret embeddings
  | text :: rest =>
      embeddings' ← try_catch
        (embedding ← generateEmbedding text 0;
         when (i <? n - 1)%nat (sleep 1000);;
         mret (embeddings ++ [embedding]))
        (λ error, throw error);
      embedLoop n (S i) rest embeddings'
  end.

(** The loop [while (retries < MAX_RETRIES)] of [processChunkBatch], entered
    with the given value of [retries]; [left] is [MAX_RETRIES - retries], so
    that the loop condition is [left] being a successor. The result is the
    returned number, or [None] when the loop is left without a [return]. *)
Fixpoint addLoop_from (left retries : nat) (ids : list jsstring)
  (embeddings : list (option embedding)) (documents : list jsstring)
  (metadatas : list (gmap string jsval)) : M (option nat) :=
  match left with
  | O => mret None
  | S left' =>
      try_catch
        (collection_add E ids embeddings documents metadatas;;
         mret (Some (length documents)))
        (λ error,
           let retries := (retries + 1)%nat in
           if (MAX_RETRIES <=? retries)%nat then throw error
           else
             sleep (1000 * retries);;
             addLoop_from left' retries ids embeddings documents metadatas)
  end.

Definition addLoop (retries : nat) (ids : list jsstring)
  (embeddings : list (option embedding)) (documents : list jsstring)
  (metadatas : list (gmap string jsval)) : M (option nat) :=
  addLoop_from (MAX_RETRIES - retries) retries ids embeddings documents metadatas.

(** The callback of [docs.map] that builds [metadatas] in
    [processChunkBatch]; [docs] is the array [processChunkBatch] received. *)
Definition chunkMetadata (docs : list document) (fileName : jsstring)
  (startIndex idx : nat) (doc : document) : M (gmap string jsval) :=
  processed_at ← now E;
  mret (cleanMetadata (list_to_map [
    ("filename", VStr fileName);
    ("source", VStr fileName);
    ("title", VStr (titleOf fileName));
    ("chunk_index", VNum (num (startIndex + idx)));
    ("total_chunks", VNum (num (length docs)));
    ("processed_at", VStr processed_at) ])).

Definition processChunkBatch (docs : list document) (fileName : jsstring)
  (startIndex : nat) : M (option nat) :=
  try_catch
    (let documents := pageContent <$> docs in
     let ids := imap (λ idx _, chunkId fileName (startIndex + idx)) docs in
     metadatas ← imapM (chunkMetadata docs fileName startIndex) 0 docs;
     embeddings ← embedLoop (length documents) 0 documents [];
     addLoop 0 ids embeddings documents metadatas)
    (λ error, mret (Some 0%nat)).

(** What [processPDF] resolves to. [chunksProcessed] is [None] when the sum
    of the batch counts is not a number. *)
Record pdfOutcome := PdfOutcome {
  success : bool;
  outcomeFileName : jsstring;
  chunksProcessed : option nat;
  totalChunks : option nat;
  errorMessage : option jsstring
}.

(** [totalAdded += batchAdded]; adding [undefined] gives [NaN]. *)
Definition plus (totalAdded batchAdded : option nat) : option nat :=
  a ← totalAdded; b ← batchAdded; Some (a + b)%nat.

(** The loop [for (let i = 0; i < docs.length; i += CHUNK_BATCH_SIZE)] of
    [processPDF], over the values [starts] that [i] still has to take. *)
Fixpoint chunkLoop (docs : list document) (fileName : jsstring)
  (starts : list nat) (totalAdded : option nat) : M (option nat) :=
  match starts with
  | [] => mret totalAdded
  | i :: starts' =>
      let chunkBatch := take CHUNK_BATCH_SIZE (drop i docs) in
      batchAdded ← processChunkBatch chunkBatch fileName i;
      when (i + CHUNK_BATCH_SIZE <? length docs)%nat (sleep 100);;
      chunkLoop docs fileName starts' (plus totalAdded batchAdded)
  end.

(** [processPDF(filePath, fileName, index, total)]; [index] and [total] are
    only printed. *)
Definition processPDF (filePath fileName : jsstring) (index total : nat)
  : M pdfOutcome :=
  try_catch
    (parsed ← parsePdf E filePath;
     match parsed with
     | Some text =>
         if negb (truthy (VStr text)) || (length (trim text) <? 100)%nat
         then throw (Error (lit "No significant text found in PDF") None)
         else
           let docs := createDocuments E text (list_to_map [
             ("filename", VStr fileName);
             ("source", VStr fileName);
             ("title", VStr (titleOf fileName)) ]) in
           if (length docs =? 0)%nat
           then throw (Error (lit "No chunks created from PDF") None)
           else
             totalAdded ← chunkLoop docs fileName
                            (strides CHUNK_BATCH_SIZE (length docs)) (Some 0%nat);
             mret (PdfOutcome true fileName totalAdded (Some (length docs)) None)
     | None => throw (Error (lit "No significant text found in PDF") None)
     end)
    (λ error,
       mret (PdfOutcome false fileName (Some 0%nat) None (Some (message error)))).

End with_env.
End Ingest.

(** ** backend/index.js *)

Module Query.

(** [array.filter((_, i) => p(i))], [i] being the index of the first element. *)
Fixpoint filterIndex {A} (p : nat → bool) (i : nat) (l : list A) : list A :=
  match l with
  | [] => []
  | x :: l' => if p i then x :: filterIndex p (S i) l' else filterIndex p (S i) l'
  end.

(** [array.indexOf(x)] on an array of strings. *)
Fixpoint arrayIndexOf (x : jsstring) (l : list jsstring) : option nat :=
  match l with
  | [] => None
  | y :: l' => if bool_decide (x = y) then Some 0%nat else S <$> arrayIndexOf x l'
  end.

(** [array.join(sep)] *)
Fixpoint join (sep : jsstring) (l : list jsstring) : jsstring :=
  match l with
  | [] => []
  | [x] => x
  | x :: l' => x ++ sep ++ join sep l'
  end.

Definition nl : jsstring := [10].
Definition dq : jsstring := [34].

(** [distances[i] < 1.5]; an index out of range reads [undefined], and the
    comparison is false. *)
Definition belowThreshold (distance : option float) : bool :=
  match distance with
  | Some d => PrimFloat.ltb d 1.5
  | None => false
  end.

(** [documents.filter((_, i) => distances[i] < 1.5)] *)
Definition goodMatches (documents : list jsstring) (distances : list float)
  : list jsstring :=
  filterIndex (λ i, belowThreshold (distances !! i)) 0 documents.

Definition noDocumentsAnswer : jsstring :=
  lit "I couldn't find any relevant documents for your question. Please try rephrasing your query or ask about different legal topics.".

Definition notRelatedAnswer : jsstring :=
  lit "I found some documents, but they don't seem closely related to your question. Please try rephrasing your query or ask about different legal topics.".

(** The callback of [goodMatches.slice(0, 5).map]; [None] when reading
    [metadata.title] throws because [metadata] is null or undefined. *)
Definition contextEntry (documents : list jsstring)
  (metadatas : list (option storedMetadata)) (i : nat) (doc : jsstring)
  : option jsstring :=
  idx ← arrayIndexOf doc documents;
  metadata ← mjoin (metadatas !! idx);
  let title := default (lit "undefined") (title metadata) in
  Some (lit "[Document " ++ of_nat (i + 1) ++ lit ": " ++ title ++ lit "]" ++ nl
        ++ substring0 800 doc ++ (if (800 <? length doc)%nat then lit "..." else [])
        ++ nl ++ lit "---").

Definition buildContext (documents good : list jsstring)
  (metadatas : list (option storedMetadata)) : option jsstring :=
  join nl <$> mapM id (imap (contextEntry documents metadatas) (take 5 good)).

(** The match of [/(\d+): ([^\]]+)\]/] that starts at the head of [s], as
    its second group. Both repetitions are greedy, and giving back a
    character never helps: after fewer digits the next character is a digit,
    not a colon, and after a shorter title the next character is not the
    closing bracket. *)
Definition titleMatchAt (s : jsstring) : option jsstring :=
  let digits := takeWhile isDigit s in
  let rest := dropWhile isDigit s in
  if bool_decide (digits = []) then None
  else if startsWith (lit ": ") rest then
    let rest := drop 2 rest in
    let group2 := takeWhile (λ c, negb (c =? 93)) rest in
    if bool_decide (group2 = []) then None
    else match dropWhile (λ c, negb (c =? 93)) rest with
         | _ :: _ => Some group2
         | [] => None
         end
  else None.

(** [doc.match(/(\d+): ([^\]]+)\]/)], as group 2 of the leftmost match. *)
Fixpoint titleMatch (doc : jsstring) : option jsstring :=
  match titleMatchAt doc with
  | Some t => Some t
  | None => match doc with
            | [] => None
            | _ :: doc' => titleMatch doc'
            end
  end.

(** The class [[.!?]]. *)
Definition isSentenceEnd (c : N) : bool := (c =? 46) || (c =? 33) || (c =? 63).

Record info := Info { infoTitle : jsstring; infoContent : jsstring }.

(** The callback of [documents.forEach] in [generateStructuredFallback]: what
    it pushes on [relevantInfo]. *)
Definition extractInfo (index : nat) (doc : jsstring) : list info :=
  if (index =? 0)%nat then []
  else
    let title := default (lit "Document " ++ of_nat index) (titleMatch doc) in
    let content := trim (default [] (head (split (lit "---") doc))) in
    let sentences :=
      List.filter (λ s, (20 <? length (trim s))%nat) (splitRuns isSentenceEnd content) in
    let keySentence := default (substring0 150 content) (head sentences) in
    [Info (trim title) (trim keySentence)].

(** [generateStructuredFallback(context, question)]. Its [try] block calls
    string and array methods on strings only and cannot throw, so the
    [catch] branch is not reached. *)
Definition generateStructuredFallback (context question : jsstring) : jsstring :=
  let documents :=
    List.filter (λ doc, truthy (VStr (trim doc))) (split (lit "[Document") context) in
  let relevantInfo := mjoin (imap extractInfo documents) in
  lit "Based on the legal documents, here's what I found regarding " ++ dq
    ++ question ++ dq ++ lit ":" ++ nl ++ nl
    ++ mjoin ((λ info, [55357; 56516] ++ lit " **" ++ infoTitle info ++ lit "**" ++ nl
                       ++ infoContent info ++ nl ++ nl) <$> relevantInfo)
    ++ lit "---" ++ nl ++ [55357; 56481]
    ++ lit " This information is extracted directly from "
    ++ of_nat (length relevantInfo) ++ lit " relevant legal document(s). "
    ++ lit "For more detailed analysis, please ensure the AI service is available.".

(** The prompt template of [generateAnswer]. *)
Definition promptFor (context question : jsstring) : jsstring :=
  join nl [
    lit "You are a helpful legal AI assistant. Based on the provided legal document excerpts, answer the user's question in a clear, informative, and conversational manner.";
    [];
    lit "INSTRUCTIONS:";
    lit "- Use the document context to provide accurate information";
    lit "- Write in a clear, professional but conversational tone";
    lit "- Focus on directly answering the user's specific question";
    lit "- If the documents contain relevant case details, summarize them helpfully";
    lit "- If information is limited, acknowledge what you can and cannot determine from the documents";
    lit "- Do not make up information not found in the documents";
    [];
    lit "USER QUESTION: " ++ question;
    [];
    lit "LEGAL DOCUMENT CONTEXT:";
    context;
    [];
    lit "Please provide a helpful answer based on the above context:" ].

Definition modelEndpoints : list jsstring :=
  [ lit "gemini-1.5-flash-latest"; lit "gemini-1.5-flash"; lit "gemini-pro" ].

(** The answer of [generateAnswer] when the credential is unusable. *)
Definition noKeyAnswer (context question : jsstring) : jsstring :=
  lit "Based on the legal documents found:" ++ nl ++ nl ++ context ++ nl ++ nl
    ++ lit "Relevant information for: " ++ dq ++ question ++ dq.

Record json := Json {
  success : bool;
  message : option jsstring;
  answer : option jsstring;
  matches : option nat
}.

Record response := Response { statusCode : nat; body : json }.

Record request := Request {
  authorization : option jsstring;
  requestBody : gmap string jsval
}.

Definition failure (code : nat) (msg : string) : response :=
  Response code (Json false (Some (lit msg)) None None).

Section with_env.
Context (E : env).

(** [generateEmbedding(text)] of the server: one attempt. *)
Definition generateEmbedding (text : jsstring) : M (option embedding) :=
  try_catch
    (if keyUnusable (GEMINI_API_KEY E)
     then throw (Error (lit "Valid GEMINI_API_KEY is required") None)
     else
       response ← axiosEmbed E text;
       match response with
       | NoEmbeddingField =>
           throw (Error (lit "Cannot read properties of undefined (reading 'values')") None)
       | EmbeddingField values => mret values
       end)
    (λ error, throw error).

(** The loop [for (let i = 0; i < modelEndpoints.length; i++)] of
    [generateAnswer] from index [i] on; [n] is [modelEndpoints.length].
    [None] is the loop left without a [return]. *)
Fixpoint tryModels (prompt : jsstring) (n i : nat) (models : list jsstring)
  : M (option jsstring) :=
  match models with
  | [] => mret None
  | model :: rest =>
      try_catch
        (text ← axiosGenerate E model prompt;
         match text with
         | Some text =>
             if truthy (VStr text) then mret (Some (trim text))
             else throw (Error (lit "Invalid response format from Gemini API") None)
         | None => throw (Error (lit "Invalid response format from Gemini API") None)
         end)
        (λ modelError,
           if (i =? n - 1)%nat then throw modelError
           else sleep 1000;; tryModels prompt n (S i) rest)
  end.

(** [generateAnswer(context, question)]; [None] is [undefined]. *)
Definition generateAnswer (context question : jsstring) : M (option jsstring) :=
  try_catch
    (if keyUnusable (GEMINI_API_KEY E)
     then mret (Some (noKeyAnswer context question))
     else tryModels (promptFor context question)
            (length modelEndpoints) 0 modelEndpoints)
    (λ error,
       if bool_decide (status error = Some 503%nat)
       then mret (Some (generateStructuredFallback context question))
       else if bool_decide (status error = Some 429%nat)
       then mret (Some (generateStructuredFallback context question))
       else mret (Some (generateStructuredFallback context question))).

(** The [auth] middleware in front of a handler [next]. *)
Definition auth (req : request) (next : M response) : M response :=
  let token := authorization req ≫= (λ a, split (lit " ") a !! 1%nat) in
  match token with
  | Some token =>
      if truthy (VStr token)
      then if jwtVerify E token then next else mret (failure 401 "Invalid token")
      else mret (failure 401 "No token")
  | None => mret (failure 401 "No token")
  end.

(** The handler of [POST /api/query]. *)
Definition queryHandler (req : request) : M response :=
  try_catch
    (let question := default VUndefined (requestBody req !! "question") in
     let rejected := failure 400 "Question must be at least 3 characters long" in
     match question with
     | VStr q =>
         (* [!question || question.trim().length < 3] on a string *)
         if negb (truthy question) || (length (trim q) <? 3)%nat then mret rejected
         else
           queryEmbedding ← generateEmbedding q;
           results ← collection_query E queryEmbedding 5;
           match documents0 results with
           | Some ((_ :: _) as documents) =>
               let metadatas := metadatas0 results in
               let distances := distances0 results in
               let good := goodMatches documents distances in
               if (length good =? 0)%nat
               then mret (Response 200 (Json true None (Some notRelatedAnswer) (Some 0%nat)))
               else
                 match buildContext documents good metadatas with
                 | Some context =>
                     answer ← generateAnswer context q;
                     mret (Response 200 (Json true None answer (Some (length good))))
                 | None =>
                     throw (Error (lit "Cannot read properties of undefined (reading 'title')") None)
                 end
           | _ => mret (Response 200 (Json true None (Some noDocumentsAnswer) (Some 0%nat)))
           end
     | _ => mret rejected  (* [!question || typeof question !== 'string'] *)
     end)
    (λ error, mret (failure 500 "Failed to process query. Please try again.")).

(** [app.post('/api/query', auth, handler)] *)
Definition queryRoute (req : request) : M response :=
  auth req (queryHandler req).

End with_env.
End Query.

(** ** Vocabulary of the properties *)

(** Event classes. *)
Definition isAdd (ev : event) : bool :=
  match ev with IndexAdd _ _ _ _ _ => true | _ => false end.

Definition isOkAdd (ev : event) : bool :=
  match ev with IndexAdd _ _ _ _ (Ok _) => true | _ => false end.

Definition isEmbedCall (ev : event) : bool :=
  match ev with EmbedCall _ _ => true | _ => false end.

Definition countAdds (new : list event) : nat := length (List.filter isAdd new).

Definition embedAttempts (new : list event) : nat := length (List.filter isEmbedCall new).

(** The sleeps of a trace, in order. *)
Definition sleeps (new : list event) : list nat :=
  new ≫= (λ ev, match ev with Sleep ms => [ms] | _ => [] end).

(** The events of [generateEmbedding] when the attempts numbered from
    [k + 1] on fail with the replies [fails]: each failed call is followed
    by the sleep before the next one. *)
Fixpoint backoff (text : jsstring) (k : nat) (fails : list (result embedReply))
  : list event :=
  match fails with
  | [] => []
  | r :: fails' => EmbedCall text r :: Sleep (1000 * (k + 1)) :: backoff text (S k) fails'
  end.

(** What [embedRequest] makes of the reply of the remote call. *)
Definition embedOutcome (r : result embedReply) : result (option embedding) :=
  match r with
  | Ok (EmbeddingField values) => Ok values
  | Ok NoEmbeddingField =>
      Throw (Error (lit "Cannot read properties of undefined (reading 'values')") None)
  | Throw e => Throw e
  end.

Definition failed {A} (r : result A) : Prop := ∃ e, r = Throw e.

(** [emits P m]: whatever the history, [m] only appends events, and each
    appended event satisfies [P]. *)
Definition emits {A} (P : event → Prop) (m : M A) : Prop :=
  ∀ t, ∃ new, (m t).2 = t ++ new ∧ Forall P new.

(** [embeddedInTurn E n i texts t t']: the chunks [texts], numbered from
    [i] in a sub-batch of [n] chunks, are embedded one after the other,
    each with success, which takes the history from [t] to [t']; a pause
    of 1000 ms follows each chunk but the last of the sub-batch. *)
Inductive embeddedInTurn (E : env) (n : nat)
  : nat → list jsstring → trace → trace → Prop :=
| embedded_none i t : embeddedInTurn E n i [] t t
| embedded_chunk i text rest embedding t t1 t' :
    Ingest.generateEmbedding E text 0 t = (Ok embedding, t1) →
    embeddedInTurn E n (S i) rest
      (if (i <? n - 1)%nat then t1 ++ [Sleep 1000%nat] else t1) t' →
    embeddedInTurn E n i (text :: rest) t t'.

(** An entry written to the index for a document split into [docs]: the
    [k]-th entry of a write is chunk [start + k] of the document and its id
    is [<fileName>_chunk_<start + k>]. *)
Definition writesChunksOf (fileName : jsstring) (docs : list document)
  (ev : event) : Prop :=
  match ev with
  | IndexAdd ids _ documents _ _ =>
      ∃ start, length ids = length documents ∧
        ∀ k text, documents !! k = Some text →
          ids !! k = Some (Ingest.chunkId fileName (start + k))
          ∧ pageContent <$> docs !! (start + k)%nat = Some text
  | _ => True
  end.

(** The number that a string of decimal digits stands for, read from the
    left; [None] when a code unit is not a digit. *)
Fixpoint readDecimal_from (acc : nat) (s : jsstring) : option nat :=
  match s with
  | [] => Some acc
  | c :: s' =>
      if isDigit c then readDecimal_from (10 * acc + N.to_nat (c - 48)) s' else None
  end.

Definition readDecimal (s : jsstring) : option nat :=
  match s with
  | [] => None
  | _ :: _ => readDecimal_from 0 s
  end.

(** The id that the specification gives to the chunk at position [index]
    of the document [fileName]: the file name, then [_chunk_], then the
    decimal numeral of [index], which has no leading zero. *)
Definition isChunkId (fileName : jsstring) (index : nat) (id : jsstring) : Prop :=
  ∃ digits,
    id = fileName ++ lit "_chunk_" ++ digits
    ∧ readDecimal digits = Some index
    ∧ (digits = [48] ∨ head digits ≠ Some 48).

(** An entry written to the index for a document split into [docs], by
    the words of the specification: the [k]-th entry of a write is chunk
    [start + k] of the document and carries the id of that position. *)
Definition writesSpecIds (fileName : jsstring) (docs : list document)
  (ev : event) : Prop :=
  match ev with
  | IndexAdd ids _ documents _ _ =>
      ∃ start, length ids = length documents ∧
        ∀ k text, documents !! k = Some text →
          (∃ id, ids !! k = Some id ∧ isChunkId fileName (start + k) id)
          ∧ pageContent <$> docs !! (start + k)%nat = Some text
  | _ => True
  end.

(** The ids of the entries that successful writes put in the index, in
    order. *)
Definition idsWritten (new : list event) : list jsstring :=
  new ≫= (λ ev, match ev with
                | IndexAdd ids _ _ _ (Ok _) => ids
                | _ => []
                end).

(** The ids of the sub-batches of [docs] that start at the positions
    [starts]. *)
Definition batchIds (docs : list document) (fileName : jsstring)
  (starts : list nat) : list jsstring :=
  mjoin ((λ i, Ingest.chunkId fileName
                 <$> seq i (Ingest.CHUNK_BATCH_SIZE `min` (length docs - i))) <$> starts).

(** The [total_chunks] fields of the entries written, in order. *)
Definition totalChunksWritten (tr : trace) : list (option jsval) :=
  tr ≫= (λ ev, match ev with
               | IndexAdd _ _ _ metadatas _ => (λ m, m !! "total_chunks") <$> metadatas
               | _ => []
               end).

(** ** Sample worlds *)

Definition timeout : error := Error (lit "timeout of 30000ms exceeded") None.

Definition unavailable : error :=
  Error (lit "Request failed with status code 503") (Some 503%nat).

(** A world with the given credential, in which the embedding and the
    generation endpoints either always answer or always fail, the index
    accepts every write and answers every query with [results], and the
    splitter cuts every document into the chunks [chunks]. *)
Definition sampleWorld (key : option jsstring) (embedUp generateUp : bool)
  (results : queryResults) (chunks : list jsstring) : env :=
  {| GEMINI_API_KEY := key;
     embedContent := λ _ _,
       if embedUp then Ok (EmbeddingField (Some [0.5%float])) else Throw timeout;
     generateContent := λ _ _ _,
       if generateUp then Ok (Some (lit " The court held for the tenant. "))
       else Throw unavailable;
     collectionQuery := λ _ _ _, Ok results;
     collectionAdd := λ _ _ _ _ _, Ok ();
     pdfParse := λ _ _, Ok (Some (mjoin chunks));
     createDocuments := λ _ meta, (λ c, Document c meta) <$> chunks;
     toISOString := λ _, lit "2024-01-01T00:00:00.000Z";
     jwtVerify := λ _, true |}.

Definition noResults : queryResults := QueryResults None [] [].

Definition sampleKey : option jsstring := Some (lit "AIzaSyExampleKey").

(** Every remote endpoint is down. *)
Definition downWorld : env := sampleWorld sampleKey false false noResults [].

(** The embedding endpoint rejects the text [rejected] and answers for
    every other text; the index accepts every write. *)
Definition pickyWorld (rejected : jsstring) : env :=
  let E := sampleWorld sampleKey true true noResults [] in
  {| GEMINI_API_KEY := GEMINI_API_KEY E;
     embedContent := λ _ text,
       if bool_decide (text = rejected) then Throw timeout
       else Ok (EmbeddingField (Some [0.5%float]));
     generateContent := generateContent E;
     collectionQuery := collectionQuery E;
     collectionAdd := collectionAdd E;
     pdfParse := pdfParse E;
     createDocuments := createDocuments E;
     toISOString := toISOString E;
     jwtVerify := jwtVerify E |}.

(** Eleven chunks of ten characters. *)
Definition elevenChunks : list jsstring :=
  (λ i, lit "chunk no " ++ of_nat (i mod 10)) <$> seq 0 11.

(** The splitter's output for the document at [filePath], as [processPDF]
    obtains it after the history [t]; empty when the text cannot be read. *)
Definition chunksOf (E : env) (filePath fileName : jsstring) (t : trace)
  : list document :=
  match pdfParse E t filePath with
  | Ok (Some text) =>
      createDocuments E text (list_to_map [
        ("filename", VStr fileName);
        ("source", VStr fileName);
        ("title", VStr (Ingest.titleOf fileName)) ])
  | _ => []
  end.

(** Every endpoint answers, and each document has eleven chunks. *)
Definition elevenWorld : env := sampleWorld sampleKey true true noResults elevenChunks.

(** A generation attempt fails when the call throws or the response carries
    no text (an absent or empty [candidates[0].content.parts[0].text]). *)
Definition generationFails (r : result (option jsstring)) : Prop :=
  match r with
  | Ok (Some text) => truthy (VStr text) = false
  | _ => True
  end.

(** No generation backend is reachable. *)
Definition backendsDown (E : env) : Prop :=
  ∀ t model prompt, generationFails (generateContent E t model prompt).

(** The generation endpoints are down; the credential is as given. *)
Definition outageWorld (key : option jsstring) : env :=
  sampleWorld key true false noResults [].

Definition sampleContext : jsstring :=
  lit "[Document 1: Smith v Jones]" ++ [10]
  ++ lit "The court held that the contract was void for uncertainty." ++ [10]
  ++ lit "---".

(** The index answers with two documents, both farther than the threshold. *)
Definition farWorld : env :=
  sampleWorld sampleKey true true
    (QueryResults (Some [lit "first text"; lit "second text"])
       [Some (StoredMetadata (Some (lit "A"))); Some (StoredMetadata (Some (lit "B")))]
       [1.6%float; 2.0%float]) [].

Definition requestWith (question : jsval) : Query.request :=
  Query.Request (Some (lit "Bearer token")) {[ "question" := question ]}.

(** The [question] field of the request body. *)
Definition questionOf (req : Query.request) : jsval :=
  default VUndefined (Query.requestBody req !! "question").

(** The questions the handler turns away: anything but a string, and a
    string of fewer than 3 characters once trimmed. *)
Definition tooShort (question : jsval) : bool :=
  match question with
  | VStr q => (length (trim q) <? 3)%nat
  | _ => true
  end.

Definition validationError : Query.response :=
  Query.failure 400 "Question must be at least 3 characters long".

(** ** backend/preprocess.js: the run over the directory *)

Module Pipeline.
Import Ingest.

(** [a < b] on strings, as the default comparison of [sort] decides it: by
    code units, a proper prefix coming first. *)
Fixpoint ltb (a b : jsstring) : bool :=
  match a, b with
  | [], [] => false
  | [], _ :: _ => true
  | _ :: _, [] => false
  | x :: a', y :: b' =>
      if x <? y then true else if y <? x then false else ltb a' b'
  end.

(** [a] may stand before [b] in a sorted array. *)
Definition le (a b : jsstring) : Prop := ltb b a = false.

#[global] Instance le_dec : RelDecision le := λ a b, decide (ltb b a = false).

(** [array.sort()] on strings. The order is total and equal strings are
    the same string, so the result does not depend on the algorithm. *)
Definition sort (l : list jsstring) : list jsstring := merge_sort le l.

(** [fs.readdirSync(pdfDir).filter(f => f.toLowerCase().endsWith('.pdf'))
      .sort().slice(0, MAX_PDFS)] *)
Definition selectFiles (listing : list jsstring) : list jsstring :=
  take MAX_PDFS (sort (List.filter isCandidate listing)).

(** The arguments [(file, i + idx)] of the calls of [processPDF] made for
    the batch that starts at [i]:
    [allFiles.slice(i, i + BATCH_SIZE).map((file, idx) => ...)]. *)
Definition fileBatch (allFiles : list jsstring) (i : nat) : list (nat * jsstring) :=
  imap (λ idx file, ((i + idx)%nat, file)) (take BATCH_SIZE (drop i allFiles)).

(** The batches of [for (let i = 0; i < allFiles.length; i += BATCH_SIZE)],
    in order. *)
Definition fileBatches (allFiles : list jsstring) : list (list (nat * jsstring)) :=
  fileBatch allFiles <$> strides BATCH_SIZE (length allFiles).

(** [Math.ceil(allFiles.length / BATCH_SIZE)], the division being exact
    division of numbers. *)
Definition totalBatches (allFiles : list jsstring) : nat :=
  ((length allFiles + (BATCH_SIZE - 1)) / BATCH_SIZE)%nat.

(** [Math.floor(i / BATCH_SIZE) + 1] *)
Definition batchNumber (i : nat) : nat := (i / BATCH_SIZE + 1)%nat.

(** The counters of the run: the module variables [processedCount],
    [errorLog] and [successLog], and [totalChunksAdded] of [processPDFs]
    ([None] when it is not a number). *)
Record tracking := Tracking {
  processedCount : nat;
  errorLog : list pdfOutcome;
  successLog : list pdfOutcome;
  totalChunksAdded : option nat
}.

Definition initialTracking : tracking := Tracking 0 [] [] (Some 0%nat).

(** The body of [for (const result of batchResults)]. *)
Definition track (st : tracking) (result : pdfOutcome) : tracking :=
  let processedCount := (processedCount st + 1)%nat in
  if success result
  then Tracking processedCount (errorLog st) (successLog st ++ [result])
         (plus (totalChunksAdded st) (chunksProcessed result))
  else Tracking processedCount (errorLog st ++ [result]) (successLog st)
         (totalChunksAdded st).

(** The counters after the batches whose results are [batches]. *)
Definition trackBatches (st : tracking) (batches : list (list pdfOutcome)) : tracking :=
  foldl (λ st batchResults, foldl track st batchResults) st batches.

End Pipeline.

(** ** Vocabulary of the further properties *)

(** The values the index accepts in a metadata object. *)
Definition isPrimitive (v : jsval) : bool :=
  match v with
  | VStr _ | VNum _ | VBool _ => true
  | _ => false
  end.

(** The texts of the embedding calls of a trace, in order. *)
Definition embedTexts (new : list event) : list jsstring :=
  new ≫= (λ ev, match ev with EmbedCall text _ => [text] | _ => [] end).

(** The events of the write loop of [processChunkBatch] when the writes
    numbered from [k + 1] on fail with the errors [fails]: each failed
    write is followed by the sleep before the next one. *)
Fixpoint writeBackoff (ids : list jsstring) (embeddings : list (option embedding))
  (documents : list jsstring) (metadatas : list (gmap string jsval))
  (k : nat) (fails : list error) : list event :=
  match fails with
  | [] => []
  | e :: fails' =>
      IndexAdd ids embeddings documents metadatas (Throw e)
        :: Sleep (1000 * (k + 1))
        :: writeBackoff ids embeddings documents metadatas (S k) fails'
  end.

(** A write of [n] entries: four arrays of [n] elements. *)
Definition writesEntries (n : nat) (ev : event) : Prop :=
  match ev with
  | IndexAdd ids embeddings documents metadatas _ =>
      length ids = n ∧ length embeddings = n ∧ length documents = n
      ∧ length metadatas = n
  | _ => True
  end.

(** A write of at least one and at most [CHUNK_BATCH_SIZE] entries, its
    four arrays of the same length. *)
Definition boundedWrite (ev : event) : Prop :=
  match ev with
  | IndexAdd ids embeddings documents metadatas _ =>
      (1 ≤ length documents ≤ Ingest.CHUNK_BATCH_SIZE)%nat
      ∧ length ids = length documents
      ∧ length embeddings = length documents
      ∧ length metadatas = length documents
  | _ => True
  end.

(** The embedding endpoint answers every call with a response that carries
    an [embedding] field. *)
Definition embeddingUp (E : env) : Prop :=
  ∀ t text, ∃ values, embedContent E t text = Ok (EmbeddingField values).

(** What one turn of the backend loop of [generateAnswer] makes of the
    reply of the generation call: the trimmed text, or an exception. *)
Definition attemptOutcome (r : result (option jsstring)) : result (option jsstring) :=
  match r with
  | Ok (Some text) =>
      if truthy (VStr text) then Ok (Some (trim text))
      else Throw (Error (lit "Invalid response format from Gemini API") None)
  | Ok None => Throw (Error (lit "Invalid response format from Gemini API") None)
  | Throw e => Throw e
  end.

(** The events of the backend loop when the first backends fail with the
    replies [fails]: each failed call is followed by a sleep of 1000 ms. *)
Fixpoint generateBackoff (prompt : jsstring) (models : list jsstring)
  (fails : list (result (option jsstring))) : list event :=
  match models, fails with
  | model :: models', r :: fails' =>
      GenerateCall model prompt r :: Sleep 1000 :: generateBackoff prompt models' fails'
  | _, _ => []
  end.

Definition isGenerateCall (ev : event) : bool :=
  match ev with GenerateCall _ _ _ => true | _ => false end.

Definition generateCalls (new : list event) : nat :=
  length (List.filter isGenerateCall new).

(** The index answers the query with a metadata object for every document
    it returns. *)
Definition metadataComplete (results : queryResults) : Prop :=
  ∀ documents i, documents0 results = Some documents → (i < length documents)%nat →
    ∃ m, metadatas0 results !! i = Some (Some m).

Definition serverError : Query.response :=
  Query.failure 500 "Failed to process query. Please try again.".





(** * Properties *)

(** ** Reasoning about traces *)

#[local] Arguments Nat.mul : simpl never.
#[local] Arguments Nat.sub : simpl never.

Ltac unfold_monad :=
  unfold when, mbind, M_bind, mret, M_ret, bind, ret, throw, try_catch in *.

Section emits_rules.
Context {A B : Type} (P : event → Prop).

Lemma emits_ret (a : A) : emits P (mret a).
Proof. intros t. exists []. rewrite app_nil_r. by split. Qed.

Lemma emits_throw (e : error) : emits P (@throw A e).
Proof. intros t. exists []. rewrite app_nil_r. by split. Qed.

Lemma emits_bind (m : M A) (k : A → M B) :
  emits P m → (∀ a, emits P (k a)) → emits P (m ≫= k).
Proof.
  intros Hm Hk t. destruct (Hm t) as (n1 & E1 & F1).
  unfold_monad. destruct (m t) as [[a|e] t1]; simpl in E1; subst t1.
  - destruct (Hk a (t ++ n1)) as (n2 & E2 & F2).
    exists (n1 ++ n2). rewrite E2, app_assoc. split; [done|by apply Forall_app].
  - by exists n1.
Qed.

Lemma emits_try_catch (m : M A) (h : error → M A) :
  emits P m → (∀ e, emits P (h e)) → emits P (try_catch m h).
Proof.
  intros Hm Hh t. destruct (Hm t) as (n1 & E1 & F1).
  unfold_monad. destruct (m t) as [[a|e] t1]; simpl in E1; subst t1.
  - by exists n1.
  - destruct (Hh e (t ++ n1)) as (n2 & E2 & F2).
    exists (n1 ++ n2). rewrite E2, app_assoc. split; [done|by apply Forall_app].
Qed.

Lemma emits_remote (answer : trace → result A) (ev : result A → event) :
  (∀ r, P (ev r)) → emits P (remote answer ev).
Proof. intros H t. exists [ev (answer t)]. split; [done|]. by repeat constructor. Qed.
End emits_rules.

Lemma emits_sleep P ms : P (Sleep ms) → emits P (sleep ms).
Proof. intros H t. exists [Sleep ms]. split; [done|]. by repeat constructor. Qed.

Lemma emits_now P E : (∀ iso, P (Now iso)) → emits P (now E).
Proof. intros H t. exists [Now (toISOString E t)]. split; [done|]. by repeat constructor. Qed.

Lemma emits_when P c m : emits P m → emits P (when c m).
Proof. destruct c; [done|]. intros _. apply emits_ret. Qed.

Lemma emits_imapM {A B} P (f : nat → A → M B) l :
  (∀ i x, emits P (f i x)) → ∀ i, emits P (imapM f i l).
Proof.
  intros Hf. induction l as [|x l IH]; intros i; simpl.
  - apply emits_ret.
  - apply emits_bind; [apply Hf|]. intros y.
    apply emits_bind; [apply IH|]. intros ys. apply emits_ret.
Qed.

(** ** String methods on examples *)

Example split_example :
  split (lit "---") (lit "a---b------c") = [lit "a"; lit "b"; []; lit "c"].
Proof. reflexivity. Qed.

Example split_no_separator : split (lit "---") (lit "a--b") = [lit "a--b"].
Proof. reflexivity. Qed.

Example split_trailing : split (lit "[Document") (lit "x[Document") = [lit "x"; []].
Proof. reflexivity. Qed.

Example splitRuns_example :
  splitRuns (λ c, c =? 46) (lit ".a..b.") = [[]; lit "a"; lit "b"; []].
Proof. reflexivity. Qed.

Example replace_example :
  replace (lit ".PDF") [] (lit "A.PDF_B.PDF") = lit "A_B.PDF".
Proof. reflexivity. Qed.

Example trim_example : trim (lit "  a b  ") = lit "a b".
Proof. reflexivity. Qed.

Example of_nat_example : of_nat 0 = lit "0" ∧ of_nat 12 = lit "12".
Proof. split; reflexivity. Qed.

(** ** The embedding client of the ingestion pipeline *)

Section embedding_client.
Context (E : env).
Import Ingest.

(** The recursion of the source: retry while [retries < MAX_RETRIES]. *)
Lemma generateEmbedding_unfold text retries t :
  generateEmbedding E text retries t =
  try_catch (embedRequest E text)
    (λ error,
       if (retries <? MAX_RETRIES)%nat
       then sleep (1000 * (retries + 1));; generateEmbedding E text (retries + 1)
       else throw error) t.
Proof.
  unfold generateEmbedding. destruct (Nat.ltb_spec retries MAX_RETRIES).
  - replace (MAX_RETRIES - retries)%nat with (S (MAX_RETRIES - (retries + 1))) by lia.
    reflexivity.
  - replace (MAX_RETRIES - retries)%nat with 0%nat by lia. reflexivity.
Qed.

Lemma embedRequest_run text t :
  keyUnusable (GEMINI_API_KEY E) = false →
  embedRequest E text t =
    (embedOutcome (embedContent E t text),
     t ++ [EmbedCall text (embedContent E t text)]).
Proof.
  intros Hk. unfold embedRequest. rewrite Hk. unfold_monad.
  unfold axiosEmbed, remote. simpl.
  by destruct (embedContent E t text) as [[|values]|e].
Qed.

Lemma embedRequest_no_key text t :
  keyUnusable (GEMINI_API_KEY E) = true →
  embedRequest E text t =
    (Throw (Error (lit "Valid GEMINI_API_KEY is required for manual embeddings") None), t).
Proof. intros Hk. unfold embedRequest. by rewrite Hk. Qed.

Lemma generateEmbedding_from_trace text :
  keyUnusable (GEMINI_API_KEY E) = false →
  ∀ left retries t, ∃ fails final,
    generateEmbedding_from E left text retries t =
      (embedOutcome final, t ++ backoff text retries fails ++ [EmbedCall text final])
    ∧ (length fails ≤ left)%nat
    ∧ Forall (λ r, failed (embedOutcome r)) fails
    ∧ (failed (embedOutcome final) → length fails = left).
Proof.
  intros Hk. induction left as [|left IH]; intros retries t.
  - exists [], (embedContent E t text). simpl. unfold try_catch.
    rewrite embedRequest_run by done.
    destruct (embedOutcome (embedContent E t text)); by repeat split.
  - simpl. unfold try_catch. rewrite embedRequest_run by done.
    destruct (embedOutcome (embedContent E t text)) as [v|e] eqn:Hout.
    + exists [], (embedContent E t text). rewrite Hout. simpl.
      repeat split; [lia|done|]. intros [e He]. discriminate.
    + unfold_monad. unfold sleep at 1.
      destruct (IH (retries + 1)%nat
                  ((t ++ [EmbedCall text (embedContent E t text)])
                     ++ [Sleep (1000 * (retries + 1))]))
        as (fails & final & Hrun & Hlen & Hfails & Hlast).
      exists (embedContent E t text :: fails), final.
      rewrite Hrun. simpl. rewrite <- !app_assoc, Nat.add_1_r. simpl.
      repeat split; [lia| |].
      * constructor; [|done]. rewrite Hout. by exists e.
      * intros Hf. by rewrite Hlast.
Qed.

Lemma embedAttempts_backoff text k fails final :
  embedAttempts (backoff text k fails ++ [EmbedCall text final]) = S (length fails).
Proof.
  unfold embedAttempts. revert k. induction fails as [|r fails IH]; intros k; simpl.
  - done.
  - by rewrite IH.
Qed.

Lemma sleeps_backoff text k fails final :
  sleeps (backoff text k fails ++ [EmbedCall text final]) =
  (λ j, 1000 * j)%nat <$> seq (S k) (length fails).
Proof.
  unfold sleeps. revert k. induction fails as [|r fails IH]; intros k; simpl.
  - done.
  - rewrite IH. by rewrite Nat.add_1_r.
Qed.

(** With an unusable credential no call is made, and still the three
    sleeps are. *)
Lemma generateEmbedding_no_key text t :
  keyUnusable (GEMINI_API_KEY E) = true →
  generateEmbedding E text 0 t =
    (Throw (Error (lit "Valid GEMINI_API_KEY is required for manual embeddings") None),
     t ++ [Sleep 1000; Sleep 2000; Sleep 3000]).
Proof.
  intros Hk. unfold generateEmbedding. simpl. unfold try_catch.
  rewrite embedRequest_no_key by done. unfold_monad. unfold sleep at 1.
  rewrite embedRequest_no_key by done. unfold sleep at 1.
  rewrite embedRequest_no_key by done. unfold sleep at 1.
  rewrite embedRequest_no_key by done. by rewrite <- !app_assoc.
Qed.

Lemma generateEmbedding_from_emits P text :
  (∀ x r, P (EmbedCall x r)) → (∀ ms, P (Sleep ms)) →
  ∀ left retries, emits P (generateEmbedding_from E left text retries).
Proof.
  intros Hc Hs. induction left as [|left IH]; intros retries; simpl.
  - apply emits_try_catch; [|intros; apply emits_throw].
    unfold embedRequest. destruct (keyUnusable _); [apply emits_throw|].
    apply emits_bind; [by apply emits_remote|].
    intros [|v]; [apply emits_throw|apply emits_ret].
  - apply emits_try_catch.
    + unfold embedRequest. destruct (keyUnusable _); [apply emits_throw|].
      apply emits_bind; [by apply emits_remote|].
      intros [|v]; [apply emits_throw|apply emits_ret].
    + intros e. apply emits_bind; [by apply emits_sleep|]. intros _. apply IH.
Qed.
End embedding_client.

Section retry_policy.
Import Ingest.

(** C2, as amended. With a usable credential, [generateEmbedding] makes
    one attempt and up to [MAX_RETRIES] retries, that is at most
    [MAX_RETRIES + 1 = 4] remote calls: the attempts in [fails] fail, the
    [k]-th of them followed by a sleep of [1000 * k] ms, and the outcome of
    the last attempt [final] is the outcome of the call, its error
    rethrown when it fails, which happens only after [MAX_RETRIES] failed
    attempts before it. *)
Theorem generateEmbedding_retry_policy (E : env) text t :
  keyUnusable (GEMINI_API_KEY E) = false →
  ∃ fails final,
    let new := backoff text 0 fails ++ [EmbedCall text final] in
    generateEmbedding E text 0 t = (embedOutcome final, t ++ new)
    ∧ Forall (λ r, failed (embedOutcome r)) fails
    ∧ (length fails ≤ MAX_RETRIES)%nat
    ∧ (failed (embedOutcome final) → length fails = MAX_RETRIES)
    ∧ embedAttempts new = (length fails + 1)%nat
    ∧ (embedAttempts new ≤ MAX_RETRIES + 1)%nat
    ∧ sleeps new = (λ k, 1000 * k)%nat <$> seq 1 (length fails).
Proof.
  intros Hk.
  destruct (generateEmbedding_from_trace E text Hk MAX_RETRIES 0%nat t)
    as (fails & final & Hrun & Hlen & Hfails & Hlast).
  exists fails, final. cbv zeta.
  rewrite embedAttempts_backoff, sleeps_backoff.
  unfold generateEmbedding. rewrite Nat.sub_0_r.
  repeat split; try done; lia.
Qed.

Lemma generateEmbedding_retry_policy_witness :
  ∃ fails final,
    let new := backoff (lit "some chunk") 0 fails ++ [EmbedCall (lit "some chunk") final] in
    generateEmbedding downWorld (lit "some chunk") 0 [] = (embedOutcome final, [] ++ new)
    ∧ Forall (λ r, failed (embedOutcome r)) fails
    ∧ (length fails ≤ MAX_RETRIES)%nat
    ∧ (failed (embedOutcome final) → length fails = MAX_RETRIES)
    ∧ embedAttempts new = (length fails + 1)%nat
    ∧ (embedAttempts new ≤ MAX_RETRIES + 1)%nat
    ∧ sleeps new = (λ k, 1000 * k)%nat <$> seq 1 (length fails).
Proof.
  exact (generateEmbedding_retry_policy downWorld (lit "some chunk") [] eq_refl).
Defined.

(** C2, as stated, fails: when the endpoint is down the client calls it
    four times, not at most [MAX_RETRIES = 3] times. *)
Lemma generateEmbedding_fourth_attempt :
  embedAttempts (generateEmbedding downWorld (lit "some chunk") 0 []).2 = 4%nat
  ∧ ¬ (embedAttempts (generateEmbedding downWorld (lit "some chunk") 0 []).2
       ≤ MAX_RETRIES)%nat.
Proof.
  assert (H : embedAttempts (generateEmbedding downWorld (lit "some chunk") 0 []).2 = 4%nat)
    by (vm_compute; reflexivity).
  rewrite H. unfold MAX_RETRIES. split; [done|lia].
Qed.

Example generateEmbedding_down_trace :
  (generateEmbedding downWorld (lit "abc") 0 []).2 =
  [ EmbedCall (lit "abc") (Throw timeout); Sleep 1000;
    EmbedCall (lit "abc") (Throw timeout); Sleep 2000;
    EmbedCall (lit "abc") (Throw timeout); Sleep 3000;
    EmbedCall (lit "abc") (Throw timeout) ]
  ∧ (generateEmbedding downWorld (lit "abc") 0 []).1 = Throw timeout.
Proof. split; reflexivity. Qed.
End retry_policy.

(** ** The batch uploader *)

Section batch_uploader.
Context (E : env).
Import Ingest.

Lemma imapM_ok {A B} (P : event → Prop) (f : nat → A → M B) :
  (∀ i x t, ∃ y new, f i x t = (Ok y, t ++ new) ∧ Forall P new) →
  ∀ l i t, ∃ ys new, imapM f i l t = (Ok ys, t ++ new) ∧ Forall P new
                     ∧ length ys = length l.
Proof.
  intros Hf. induction l as [|x l IH]; intros i t.
  - exists [], []. by rewrite app_nil_r.
  - destruct (Hf i x t) as (y & n1 & Hy & F1).
    destruct (IH (S i) (t ++ n1)) as (ys & n2 & Hys & F2 & Hlen).
    exists (y :: ys), (n1 ++ n2). cbn [imapM]. unfold_monad.
    rewrite Hy, Hys, app_assoc. simpl. rewrite Hlen.
    split; [done|]. split; [by apply Forall_app|done].
Qed.

Lemma chunkMetadata_ok docs fileName startIndex idx doc t :
  ∃ y new, chunkMetadata E docs fileName startIndex idx doc t = (Ok y, t ++ new)
           ∧ Forall (λ ev, isAdd ev = false) new.
Proof. eexists _, [Now _]. split; [reflexivity|]. by repeat constructor. Qed.

Lemma embedLoop_emits P n documents :
  (∀ x r, P (EmbedCall x r)) → (∀ ms, P (Sleep ms)) →
  ∀ i embeddings, emits P (embedLoop E n i documents embeddings).
Proof.
  intros Hc Hs. induction documents as [|text rest IH]; intros i embeddings.
  - apply emits_ret.
  - cbn [embedLoop]. apply emits_bind; [|intros; apply IH].
    apply emits_try_catch; [|intros; apply emits_throw].
    apply emits_bind; [by apply generateEmbedding_from_emits|]. intros v.
    apply emits_bind; [|intros; apply emits_ret].
    apply emits_when. by apply emits_sleep.
Qed.

(** The loop of the source: write while [retries < MAX_RETRIES]. *)
Lemma addLoop_unfold retries ids embeddings documents metadatas t :
  addLoop E retries ids embeddings documents metadatas t =
  (if (retries <? MAX_RETRIES)%nat
   then try_catch
          (collection_add E ids embeddings documents metadatas;;
           mret (Some (length documents)))
          (λ error,
             if (MAX_RETRIES <=? retries + 1)%nat then throw error
             else sleep (1000 * (retries + 1));;
                  addLoop E (retries + 1) ids embeddings documents metadatas)
   else mret None) t.
Proof.
  unfold addLoop. destruct (Nat.ltb_spec retries MAX_RETRIES).
  - replace (MAX_RETRIES - retries)%nat with (S (MAX_RETRIES - (retries + 1))) by lia.
    reflexivity.
  - by replace (MAX_RETRIES - retries)%nat with 0%nat by lia.
Qed.

(** The write loop either returns the batch size after a successful write,
    the only one of the loop, or throws after [MAX_RETRIES] failed writes. *)
Lemma addLoop_spec ids embeddings documents metadatas :
  ∀ left retries t,
    left = (MAX_RETRIES - retries)%nat → (0 < left)%nat →
    ∃ r new,
      addLoop_from E left retries ids embeddings documents metadatas t = (r, t ++ new)
      ∧ ((r = Ok (Some (length documents)) ∧ existsb isOkAdd new = true
          ∧ idsWritten new = ids)
         ∨ (failed r ∧ existsb isOkAdd new = false ∧ countAdds new = left
            ∧ idsWritten new = [])).
Proof.
  induction left as [|left IH]; intros retries t Hleft Hpos; [lia|].
  cbn [addLoop_from]. unfold_monad. unfold collection_add, remote.
  destruct (collectionAdd E t ids embeddings documents metadatas) as [[]|e] eqn:Hadd.
  - eexists _, [_]. split; [reflexivity|]. left. repeat split. apply app_nil_r.
  - destruct (Nat.leb_spec MAX_RETRIES (retries + 1)) as [Hge|Hlt].
    + eexists _, [_]. split; [reflexivity|]. right.
      split; [by exists e|]. split; [done|]. split; [|done].
      unfold countAdds. simpl. lia.
    + unfold sleep at 1.
      destruct (IH (retries + 1)%nat
                  ((t ++ [IndexAdd ids embeddings documents metadatas (Throw e)])
                     ++ [Sleep (1000 * (retries + 1))]))
        as (r & new & Hrun & Hcases); [lia|lia|].
      exists r, (IndexAdd ids embeddings documents metadatas (Throw e)
                   :: Sleep (1000 * (retries + 1)) :: new).
      rewrite Hrun, <- !app_assoc. split; [done|].
      destruct Hcases as [(-> & Hok & Hids)|(Hf & Hno & Hcount & Hids)].
      * left. by repeat split.
      * right. split; [done|]. split; [done|]. split; [|done].
        unfold countAdds in *. simpl. by rewrite Hcount.
Qed.

Lemma existsb_false_of_Forall (p : event → bool) new :
  Forall (λ ev, p ev = false) new → existsb p new = false.
Proof. induction 1 as [|ev new Hev _ IH]; simpl; [done|]. by rewrite Hev, IH. Qed.

Lemma countAdds_app a b : countAdds (a ++ b) = (countAdds a + countAdds b)%nat.
Proof. unfold countAdds. by rewrite List.filter_app, length_app. Qed.

Lemma countAdds_none new : Forall (λ ev, isAdd ev = false) new → countAdds new = 0%nat.
Proof.
  unfold countAdds. induction 1 as [|ev new Hev _ IH]; simpl; [done|]. by rewrite Hev.
Qed.

Lemma isOkAdd_isAdd ev : isAdd ev = false → isOkAdd ev = false.
Proof. by destruct ev. Qed.

Lemma idsWritten_app a b : idsWritten (a ++ b) = idsWritten a ++ idsWritten b.
Proof. unfold idsWritten. apply bind_app. Qed.

Lemma idsWritten_none new : Forall (λ ev, isAdd ev = false) new → idsWritten new = [].
Proof.
  unfold idsWritten. induction 1 as [|ev new Hev _ IH]; [done|].
  rewrite bind_cons, IH. by destruct ev.
Qed.
End batch_uploader.

Section all_or_nothing.
Context (E : env).
Import Ingest.

(** One turn of the embedding loop: the embedding of the chunk, the pause
    unless the chunk is the last, and the rest of the loop; an error of
    the embedding is rethrown and ends the loop. *)
Lemma embedLoop_step n i text rest embeddings t :
  embedLoop E n i (text :: rest) embeddings t =
  match generateEmbedding E text 0 t with
  | (Ok embedding, t1) =>
      embedLoop E n (S i) rest (embeddings ++ [embedding])
        (if (i <? n - 1)%nat then t1 ++ [Sleep 1000] else t1)
  | (Throw e, t1) => (Throw e, t1)
  end.
Proof.
  cbn [embedLoop]. unfold_monad.
  destruct (generateEmbedding E text 0 t) as [[v|e] t1]; [|done].
  by destruct (i <? n - 1)%nat.
Qed.

(** The loop stops at the first chunk whose embedding fails: the chunks
    after it are not embedded. *)
Lemma embedLoop_aborts n before text after :
  ∀ i embeddings t embeddings' tk e tk',
    embedLoop E n i before embeddings t = (Ok embeddings', tk) →
    generateEmbedding E text 0 tk = (Throw e, tk') →
    embedLoop E n i (before ++ text :: after) embeddings t = (Throw e, tk').
Proof.
  induction before as [|x before IH];
    intros i embeddings t embeddings' tk e tk' Hrun Hfail.
  - injection Hrun as <- <-. rewrite app_nil_l, embedLoop_step. by rewrite Hfail.
  - rewrite <- app_comm_cons, embedLoop_step. rewrite embedLoop_step in Hrun.
    destruct (generateEmbedding E x 0 t) as [[v|e0] t1]; [|done].
    by eapply IH.
Qed.

Lemma embedLoop_fails n documents text :
  text ∈ documents →
  (∀ t, ∃ e t', generateEmbedding E text 0 t = (Throw e, t')) →
  ∀ i embeddings t, ∃ e t', embedLoop E n i documents embeddings t = (Throw e, t').
Proof.
  intros Hin Hfail. induction documents as [|x rest IH]; intros i embeddings t.
  - by apply elem_of_nil in Hin.
  - rewrite embedLoop_step.
    destruct (generateEmbedding E x 0 t) as [[v|e] t1] eqn:Hx; [|by eexists _, _].
    apply elem_of_cons in Hin as [->|Hin].
    + destruct (Hfail t) as (e & t' & Ht). congruence.
    + by apply IH.
Qed.

Lemma embedLoop_succeeds n documents :
  (∀ text, text ∈ documents →
     ∀ t, ∃ v t', generateEmbedding E text 0 t = (Ok v, t')) →
  ∀ i embeddings t,
    ∃ embeddings' t', embedLoop E n i documents embeddings t = (Ok embeddings', t').
Proof.
  induction documents as [|x rest IH]; intros Hok i embeddings t.
  - by eexists _, _.
  - rewrite embedLoop_step. destruct (Hok x ltac:(left) t) as (v & t1 & ->).
    apply IH. intros text Hin. apply Hok. by right.
Qed.

(** Chunks embedded in turn are what the loop does on them. *)
Lemma embedLoop_embeddedInTurn n i texts t t' :
  embeddedInTurn E n i texts t t' →
  ∀ embeddings, ∃ embeddings', embedLoop E n i texts embeddings t = (Ok embeddings', t').
Proof.
  induction 1 as [i t|i text rest v t t1 t' Hv _ IH]; intros embeddings.
  - by eexists.
  - rewrite embedLoop_step, Hv. apply IH.
Qed.

(** An index that rejects every write makes the write loop throw. *)
Lemma addLoop_rejected ids embeddings documents metadatas :
  (∀ t, ∃ e, collectionAdd E t ids embeddings documents metadatas = Throw e) →
  ∀ left retries t, left = (MAX_RETRIES - retries)%nat → (0 < left)%nat →
    ∃ e t', addLoop_from E left retries ids embeddings documents metadatas t = (Throw e, t').
Proof.
  intros Hrej. induction left as [|left IH]; intros retries t Hleft Hpos; [lia|].
  cbn [addLoop_from]. unfold_monad. unfold collection_add, remote.
  destruct (Hrej t) as [e ->].
  destruct (Nat.leb_spec MAX_RETRIES (retries + 1)) as [Hge|Hlt]; [by eexists _, _|].
  unfold sleep at 1. apply IH; lia.
Qed.

(** A first write that the index accepts ends the write loop. *)
Lemma addLoop_accepted ids embeddings documents metadatas t :
  collectionAdd E t ids embeddings documents metadatas = Ok () →
  addLoop E 0 ids embeddings documents metadatas t =
    (Ok (Some (length documents)),
     t ++ [IndexAdd ids embeddings documents metadatas (Ok ())]).
Proof.
  intros Hok. rewrite addLoop_unfold. change (0 <? MAX_RETRIES)%nat with true.
  unfold_monad. unfold collection_add, remote. by rewrite Hok.
Qed.

(** C1. A sub-batch reports either 0 or its full size, and never throws:
    [count] is the full size exactly when a write to the index succeeded.
    When the embedding loop throws, no write is attempted and the count
    is 0; when the write loop throws, which it does after [MAX_RETRIES]
    failed writes, the count is 0; otherwise it is the sub-batch size.
    On the embedding itself: when [generateEmbedding] fails for a chunk,
    be it at any moment or at the moment the loop reaches the chunk, the
    chunks before it having been embedded in turn, the loop ends there,
    no write is attempted and the count is 0. On the index: when it
    rejects every write the count is 0; when every embedding succeeds and
    the index accepts the writes, the count is the sub-batch size, after a
    single write. *)
Theorem processChunkBatch_all_or_nothing docs fileName startIndex t :
  ∃ count new,
    processChunkBatch E docs fileName startIndex t = (Ok (Some count), t ++ new)
    ∧ (count = 0%nat ∨ count = length docs)
    ∧ count = (if existsb isOkAdd new then length docs else 0%nat)
    ∧ (∀ metadatas t1,
        imapM (chunkMetadata E docs fileName startIndex) 0 docs t = (Ok metadatas, t1) →
        match embedLoop E (length (pageContent <$> docs)) 0 (pageContent <$> docs) [] t1 with
        | (Throw _, _) => count = 0%nat ∧ countAdds new = 0%nat
        | (Ok embeddings, t2) =>
            match addLoop E 0
                    (imap (λ idx _, chunkId fileName (startIndex + idx)) docs)
                    embeddings (pageContent <$> docs) metadatas t2 with
            | (Throw _, _) => count = 0%nat ∧ countAdds new = MAX_RETRIES
            | (Ok _, _) => count = length docs
            end
        end)
    ∧ (∀ doc, doc ∈ docs →
         (∀ t', ∃ e t'', generateEmbedding E (pageContent doc) 0 t' = (Throw e, t'')) →
         count = 0%nat ∧ countAdds new = 0%nat)
    ∧ (∀ before doc after metadatas t1 embeddings tk e tk',
         docs = before ++ doc :: after →
         imapM (chunkMetadata E docs fileName startIndex) 0 docs t = (Ok metadatas, t1) →
         embedLoop E (length docs) 0 (pageContent <$> before) [] t1 = (Ok embeddings, tk) →
         generateEmbedding E (pageContent doc) 0 tk = (Throw e, tk') →
         count = 0%nat ∧ countAdds new = 0%nat ∧ t ++ new = tk')
    ∧ (∀ before doc after metadatas t1 tk e tk',
         docs = before ++ doc :: after →
         imapM (chunkMetadata E docs fileName startIndex) 0 docs t = (Ok metadatas, t1) →
         embeddedInTurn E (length docs) 0 (pageContent <$> before) t1 tk →
         generateEmbedding E (pageContent doc) 0 tk = (Throw e, tk') →
         count = 0%nat ∧ countAdds new = 0%nat ∧ t ++ new = tk')
    ∧ ((∀ t' ids embeddings documents metadatas,
          ∃ e, collectionAdd E t' ids embeddings documents metadatas = Throw e) →
       count = 0%nat)
    ∧ ((∀ doc, doc ∈ docs →
          ∀ t', ∃ v t'', generateEmbedding E (pageContent doc) 0 t' = (Ok v, t'')) →
       (∀ t' ids embeddings documents metadatas,
          collectionAdd E t' ids embeddings documents metadatas = Ok ()) →
       count = length docs ∧ countAdds new = 1%nat).
Proof.
  unfold processChunkBatch, try_catch. unfold_monad.
  destruct (imapM_ok (λ ev, isAdd ev = false)
              (chunkMetadata E docs fileName startIndex)
              (chunkMetadata_ok E docs fileName startIndex) docs 0%nat t)
    as (metas & n1 & Hm & F1 & _).
  rewrite Hm.
  destruct (embedLoop_emits E (λ ev, isAdd ev = false)
              (length (pageContent <$> docs)) (pageContent <$> docs)
              ltac:(done) ltac:(done) 0%nat [] (t ++ n1)) as (n2 & H2 & F2).
  destruct (embedLoop E _ 0 _ [] (t ++ n1)) as [[embs|e] t2] eqn:Hemb;
    simpl in H2; subst t2.
  - assert (Hfails : ∀ doc, doc ∈ docs →
              (∀ t', ∃ e t'', generateEmbedding E (pageContent doc) 0 t' = (Throw e, t'')) →
              False).
    { intros doc Hin Hfail.
      destruct (embedLoop_fails (length (pageContent <$> docs)) (pageContent <$> docs)
                  (pageContent doc) (list_elem_of_fmap_2 _ _ _ Hin) Hfail 0%nat []
                  (t ++ n1)) as (e & t' & Hthrow).
      congruence. }
    assert (Haborts : ∀ before doc after metadatas t1 embeddings tk e tk',
              docs = before ++ doc :: after →
              (Ok metas : result _, t ++ n1) = (Ok metadatas, t1) →
              embedLoop E (length docs) 0 (pageContent <$> before) [] t1 = (Ok embeddings, tk) →
              generateEmbedding E (pageContent doc) 0 tk = (Throw e, tk') →
              False).
    { intros before doc after metadatas t1 embeddings tk e tk' Hdocs [= <- <-] Hrun Hfail.
      pose proof (embedLoop_aborts _ _ _ (pageContent <$> after) _ _ _ _ _ _ _ Hrun Hfail)
        as Hthrow.
      rewrite length_fmap in Hemb. rewrite Hdocs in Hemb at 2.
      rewrite fmap_app, fmap_cons in Hemb. congruence. }
    unfold addLoop. rewrite Nat.sub_0_r.
    destruct (addLoop_spec E
                (imap (λ idx _, chunkId fileName (startIndex + idx)) docs)
                embs (pageContent <$> docs) metas MAX_RETRIES 0%nat
                ((t ++ n1) ++ n2)) as (r & n3 & Hadd & Hcases);
      [done|unfold MAX_RETRIES; lia|].
    rewrite Hadd. rewrite length_fmap in Hcases.
    destruct Hcases as [(-> & Hok & _)|([e ->] & Hno & Hcount & _)].
    + exists (length docs), (n1 ++ n2 ++ n3). rewrite <- !app_assoc.
      split; [done|]. split; [by right|].
      rewrite !existsb_app, Hok, !orb_true_r. split; [done|].
      split; [intros metadatas t1 [= <- <-]; by rewrite Hemb, Hadd|].
      split; [intros doc Hin Hfail; by destruct (Hfails doc Hin Hfail)|].
      split; [intros; exfalso; eauto using Haborts|].
      split.
      { intros before doc after metadatas t1 tk e' tk' Hdocs Hmeta Hturn Hfail.
        destruct (embedLoop_embeddedInTurn _ _ _ _ _ Hturn []) as [embeddings Hrun].
        exfalso. eauto using Haborts. }
      split.
      { intros Hrej.
        destruct (addLoop_rejected
                    (imap (λ idx _, chunkId fileName (startIndex + idx)) docs)
                    embs (pageContent <$> docs) metas
                    (λ t', Hrej t' _ _ _ _) MAX_RETRIES 0%nat
                    ((t ++ n1) ++ n2)) as (e & t' & Hthrow);
          [done|unfold MAX_RETRIES; lia|].
        rewrite Hadd in Hthrow. discriminate. }
      intros _ Hacc. split; [done|].
      pose proof (addLoop_accepted
                    (imap (λ idx _, chunkId fileName (startIndex + idx)) docs)
                    embs (pageContent <$> docs) metas ((t ++ n1) ++ n2)
                    (Hacc _ _ _ _ _)) as Hone.
      unfold addLoop in Hone. rewrite Nat.sub_0_r, Hadd in Hone.
      injection Hone as _ Hone. apply app_inv_head in Hone as ->.
      rewrite !countAdds_app, !countAdds_none by done. reflexivity.
    + exists 0%nat, (n1 ++ n2 ++ n3). rewrite <- !app_assoc.
      split; [done|]. split; [by left|].
      rewrite !existsb_app, Hno.
      rewrite (existsb_false_of_Forall isOkAdd n1), (existsb_false_of_Forall isOkAdd n2);
        try (eapply Forall_impl; [eassumption|apply isOkAdd_isAdd]).
      split; [done|].
      split.
      { intros metadatas t1 [= <- <-]. rewrite Hemb, Hadd.
        split; [done|]. rewrite !countAdds_app, Hcount.
        by rewrite !countAdds_none. }
      split; [intros doc Hin Hfail; by destruct (Hfails doc Hin Hfail)|].
      split; [intros; exfalso; eauto using Haborts|].
      split.
      { intros before doc after metadatas t1 tk e' tk' Hdocs Hmeta Hturn Hfail.
        destruct (embedLoop_embeddedInTurn _ _ _ _ _ Hturn []) as [embeddings Hrun].
        exfalso. eauto using Haborts. }
      split; [done|].
      intros _ Hacc.
      pose proof (addLoop_accepted
                    (imap (λ idx _, chunkId fileName (startIndex + idx)) docs)
                    embs (pageContent <$> docs) metas ((t ++ n1) ++ n2)
                    (Hacc _ _ _ _ _)) as Hone.
      unfold addLoop in Hone. rewrite Nat.sub_0_r, Hadd in Hone. discriminate.
  - exists 0%nat, (n1 ++ n2). rewrite <- !app_assoc.
    split; [done|]. split; [by left|].
    rewrite !existsb_app.
    rewrite (existsb_false_of_Forall isOkAdd n1), (existsb_false_of_Forall isOkAdd n2);
      try (eapply Forall_impl; [eassumption|apply isOkAdd_isAdd]).
    split; [done|].
    assert (Hnone : countAdds (n1 ++ n2) = 0%nat).
    { rewrite !countAdds_app. by rewrite !countAdds_none. }
    split; [intros metadatas t1 [= <- <-]; by rewrite Hemb|].
    split; [done|].
    split.
    { intros before doc after metadatas t1 embeddings tk e' tk' Hdocs [= <- <-] Hrun Hfail.
      split; [done|]. split; [done|].
      pose proof (embedLoop_aborts _ _ _ (pageContent <$> after) _ _ _ _ _ _ _ Hrun Hfail)
        as Hthrow.
      rewrite length_fmap in Hemb. rewrite Hdocs in Hemb at 2.
      rewrite fmap_app, fmap_cons in Hemb. rewrite <- app_assoc in Hemb. congruence. }
    split.
    { intros before doc after metadatas t1 tk e' tk' Hdocs [= <- <-] Hturn Hfail.
      destruct (embedLoop_embeddedInTurn _ _ _ _ _ Hturn []) as [embeddings Hrun].
      split; [done|]. split; [done|].
      pose proof (embedLoop_aborts _ _ _ (pageContent <$> after) _ _ _ _ _ _ _ Hrun Hfail)
        as Hthrow.
      rewrite length_fmap in Hemb. rewrite Hdocs in Hemb at 2.
      rewrite fmap_app, fmap_cons in Hemb. rewrite <- app_assoc in Hemb. congruence. }
    split; [done|].
    intros Hok _.
    destruct (embedLoop_succeeds (length (pageContent <$> docs)) (pageContent <$> docs))
      with (i := 0%nat) (embeddings := @nil (option embedding)) (t := t ++ n1)
      as (embs & t' & Hrun).
    { intros text Hin. apply list_elem_of_fmap_1 in Hin as (doc & -> & Hin).
      by apply Hok. }
    congruence.
Qed.
End all_or_nothing.

(** A sub-batch of three chunks whose second chunk the embedding endpoint
    rejects: the first chunk is embedded, the second is tried four times,
    the third is never sent, nothing is written and the count is 0. *)
Example processChunkBatch_second_chunk_fails :
  let docs := (λ text, Document text ∅)
                <$> [lit "good chunk"; lit "bad chunk"; lit "later chunk"] in
  let run := Ingest.processChunkBatch (pickyWorld (lit "bad chunk")) docs
               (lit "case.PDF") 0 [] in
  run.1 = Ok (Some 0%nat)
  ∧ countAdds run.2 = 0%nat
  ∧ List.filter isEmbedCall run.2 =
      EmbedCall (lit "good chunk") (Ok (EmbeddingField (Some [0.5%float])))
        :: replicate 4 (EmbedCall (lit "bad chunk") (Throw timeout))
  ∧ ∀ t, ∃ t', Ingest.generateEmbedding (pickyWorld (lit "bad chunk")) (lit "bad chunk") 0 t
               = (Throw timeout, t').
Proof.
  split; [vm_compute; reflexivity|]. split; [vm_compute; reflexivity|].
  split; [vm_compute; reflexivity|].
  intros t. eexists. unfold Ingest.generateEmbedding.
  change (Ingest.MAX_RETRIES - 0)%nat with 3%nat.
  cbn [Ingest.generateEmbedding_from]. unfold try_catch, Ingest.embedRequest.
  unfold_monad. unfold axiosEmbed, remote, sleep. simpl. reflexivity.
Qed.

(** ** Entries written by the ingestion pipeline *)

Section written_entries.
Context (E : env).
Import Ingest.

Lemma addLoop_emits P ids embeddings documents metadatas :
  (∀ r, P (IndexAdd ids embeddings documents metadatas r)) → (∀ ms, P (Sleep ms)) →
  ∀ left retries, emits P (addLoop_from E left retries ids embeddings documents metadatas).
Proof.
  intros Ha Hs. induction left as [|left IH]; intros retries; cbn [addLoop_from].
  - apply emits_ret.
  - apply emits_try_catch.
    + apply emits_bind; [by apply emits_remote|]. intros; apply emits_ret.
    + intros e. destruct (_ <=? _)%nat; [apply emits_throw|].
      apply emits_bind; [by apply emits_sleep|]. intros; apply IH.
Qed.

Lemma processChunkBatch_emits P docs fileName startIndex :
  (∀ iso, P (Now iso)) → (∀ x r, P (EmbedCall x r)) → (∀ ms, P (Sleep ms)) →
  (∀ embeddings metadatas r,
     P (IndexAdd (imap (λ idx _, chunkId fileName (startIndex + idx)) docs)
          embeddings (pageContent <$> docs) metadatas r)) →
  emits P (processChunkBatch E docs fileName startIndex).
Proof.
  intros Hn Hc Hs Ha. unfold processChunkBatch.
  apply emits_try_catch; [|intros; apply emits_ret].
  apply emits_bind.
  { apply emits_imapM. intros i x. unfold chunkMetadata.
    apply emits_bind; [by apply emits_now|]. intros; apply emits_ret. }
  intros metadatas. apply emits_bind; [by apply embedLoop_emits|].
  intros embeddings. by apply addLoop_emits.
Qed.

(** The write of the sub-batch that starts at chunk [i]. *)
Lemma batch_writesChunksOf fileName docs i embeddings metadatas r :
  let batch := take CHUNK_BATCH_SIZE (drop i docs) in
  writesChunksOf fileName docs
    (IndexAdd (imap (λ idx _, chunkId fileName (i + idx)) batch)
       embeddings (pageContent <$> batch) metadatas r).
Proof.
  intros batch. exists i. split; [by rewrite length_imap, length_fmap|].
  intros k text Hk. rewrite list_lookup_fmap in Hk.
  destruct (batch !! k) as [d|] eqn:Hd; [|done]. injection Hk as <-.
  split.
  - by rewrite list_lookup_imap, Hd.
  - unfold batch in Hd. apply lookup_take_Some in Hd as [Hd _].
    rewrite lookup_drop in Hd. by rewrite Hd.
Qed.

Lemma chunkLoop_emits fileName docs :
  ∀ starts totalAdded,
    emits (writesChunksOf fileName docs) (chunkLoop E docs fileName starts totalAdded).
Proof.
  induction starts as [|i starts IH]; intros totalAdded; cbn [chunkLoop].
  - apply emits_ret.
  - apply emits_bind.
    { apply processChunkBatch_emits; try done.
      intros. apply batch_writesChunksOf. }
    intros batchAdded. apply emits_bind; [|intros; apply IH].
    apply emits_when. by apply emits_sleep.
Qed.
End written_entries.

(** ** The ids of a fully ingested document *)

Section strides_facts.

Lemma filter_none {A} (p : A → bool) l :
  Forall (λ x, p x = false) l → List.filter p l = [].
Proof. induction 1 as [|x l Hx _ IH]; simpl; [done|]. by rewrite Hx. Qed.

Lemma filter_fmap {A B} (p : B → bool) (g : A → B) l :
  List.filter p (g <$> l) = g <$> List.filter (λ x, p (g x)) l.
Proof.
  induction l as [|x l IH]; [done|].
  rewrite fmap_cons. cbn [List.filter]. rewrite IH. by destruct (p (g x)).
Qed.

Lemma filter_ext_bool {A} (p q : A → bool) l :
  (∀ x, p x = q x) → List.filter p l = List.filter q l.
Proof. intros H. induction l as [|x l IH]; simpl; [done|]. by rewrite H, IH. Qed.

(** The loop variable starts at 0 and then runs over the values of the
    same loop on [n - step], moved by [step]. *)
Lemma strides_step step n :
  (0 < step)%nat →
  strides step n =
  if (n =? 0)%nat then [] else 0%nat :: (Nat.add step <$> strides step (n - step)).
Proof.
  intros Hstep. unfold strides. destruct n as [|m]; [done|].
  cbn [seq List.filter Nat.eqb]. rewrite Nat.Div0.mod_0_l. cbn [Nat.eqb]. f_equal.
  assert (Hlow : ∀ k, (k < step)%nat →
            List.filter (λ i, (i mod step =? 0)%nat) (seq 1 k) = []).
  { intros k Hk. apply filter_none, Forall_forall. intros i Hi.
    apply elem_of_seq in Hi. apply Nat.eqb_neq. rewrite Nat.mod_small; lia. }
  destruct (Nat.lt_ge_cases m step) as [Hlt|Hge].
  - replace (S m - step)%nat with 0%nat by lia. by rewrite Hlow.
  - replace m with ((step - 1) + (S m - step))%nat at 1 by lia.
    rewrite seq_app, List.filter_app, Hlow by lia. simpl.
    replace (S (step - 1)) with (step + 0)%nat by lia.
    rewrite <- fmap_add_seq, filter_fmap. f_equal.
    apply filter_ext_bool. intros i.
    replace (step + i)%nat with (i + 1 * step)%nat by lia.
    by rewrite Nat.Div0.mod_add.
Qed.

(** The sub-batches cover the positions [0 .. n-1], each once, in order. *)
Lemma strides_cover {A} (f : nat → A) n :
  mjoin ((λ i, f <$> seq i (10 `min` (n - i))) <$> strides 10 n) = f <$> seq 0 n.
Proof.
  revert f. induction (lt_wf n) as [n _ IH]. intros f.
  rewrite strides_step by lia. destruct (Nat.eqb_spec n 0) as [->|Hn]; [done|].
  rewrite fmap_cons, <- list_fmap_compose. cbn [mjoin list_join].
  assert (Heq : ((λ i, f <$> seq i (10 `min` (n - i))) ∘ Nat.add 10) <$> strides 10 (n - 10)
                = (λ j, (λ k, f (10 + k)%nat) <$> seq j (10 `min` (n - 10 - j)))
                    <$> strides 10 (n - 10)).
  { apply list_fmap_ext. intros i j _. unfold compose.
    rewrite <- fmap_add_seq, <- list_fmap_compose.
    by replace (n - (10 + j))%nat with (n - 10 - j)%nat by lia. }
  rewrite Heq.
  change (list_join ?l) with (mjoin l).
  rewrite (IH (n - 10)%nat) by lia.
  rewrite (list_fmap_compose (Nat.add 10) f), fmap_add_seq, <- fmap_app.
  f_equal. rewrite Nat.sub_0_r.
  destruct (Nat.le_gt_cases n 10).
  - replace (n - 10)%nat with 0%nat by lia. rewrite app_nil_r. f_equal. lia.
  - replace (10 `min` n)%nat with 10%nat by lia.
    replace (10 + 0)%nat with (0 + 10)%nat by lia.
    rewrite <- seq_app. f_equal. lia.
Qed.

Lemma strides_lt step n : Forall (λ i, (i < n)%nat) (strides step n).
Proof.
  unfold strides. apply Forall_forall. intros i Hi.
  apply list_elem_of_In, List.filter_In in Hi as [Hi _].
  apply list_elem_of_In, elem_of_seq in Hi. lia.
Qed.

End strides_facts.

Section chunk_id_facts.
Import Ingest.

Lemma lit_inj s s' : lit s = lit s' → s = s'.
Proof.
  unfold lit. intros H. apply (f_equal (fmap ascii_of_N)) in H.
  rewrite <- !list_fmap_compose in H.
  rewrite !(list_fmap_ext (ascii_of_N ∘ N_of_ascii) id) in H
    by (intros; apply ascii_N_embedding).
  rewrite !list_fmap_id in H.
  apply (f_equal string_of_list_ascii) in H.
  by rewrite !string_of_list_ascii_of_string in H.
Qed.

Lemma to_uint_not_nil n : Nat.to_uint n ≠ Decimal.Nil.
Proof.
  rewrite <- (DecimalNat.Unsigned.of_to n) at 1. rewrite DecimalNat.Unsigned.to_of.
  unfold Decimal.unorm. by destruct (Decimal.nzhead _).
Qed.

Lemma of_nat_inj i j : of_nat i = of_nat j → i = j.
Proof.
  unfold of_nat. intros H%lit_inj.
  apply (f_equal NilZero.uint_of_string) in H.
  rewrite !NilZero.usu in H by apply to_uint_not_nil.
  injection H as H. by apply DecimalNat.Unsigned.to_uint_inj.
Qed.

(** Distinct chunks of a document never share an id. *)
Lemma chunkId_inj fileName i j : chunkId fileName i = chunkId fileName j → i = j.
Proof.
  unfold chunkId. intros H. apply app_inv_head in H. apply app_inv_head in H.
  by apply of_nat_inj.
Qed.

Lemma lit_cons c s : lit (String c s) = N_of_ascii c :: lit s.
Proof. reflexivity. Qed.

Lemma readDecimal_from_uint d :
  ∀ acc, readDecimal_from acc (lit (NilEmpty.string_of_uint d)) = Some (Nat.of_uint_acc d acc).
Proof.
  induction d as [|d IH|d IH|d IH|d IH|d IH|d IH|d IH|d IH|d IH|d IH]; intros acc;
    [done|..];
    cbn [NilEmpty.string_of_uint Nat.of_uint_acc]; rewrite lit_cons;
    cbn [readDecimal_from];
    match goal with
    | |- context [isDigit ?c] =>
        let b := eval vm_compute in (isDigit c) in change (isDigit c) with b
    end;
    match goal with
    | |- context [N.to_nat ?x] =>
        let v := eval vm_compute in (N.to_nat x) in change (N.to_nat x) with v
    end;
    cbn iota; rewrite IH, Nat.tail_mul_spec; f_equal; f_equal; lia.
Qed.

(** The decimal rendering of a number reads back as that number. *)
Lemma readDecimal_of_nat n : readDecimal (of_nat n) = Some n.
Proof.
  unfold of_nat, NilZero.string_of_uint.
  pose proof (DecimalNat.Unsigned.of_to n) as Hval.
  pose proof (to_uint_not_nil n) as Hnil.
  destruct (Nat.to_uint n) as [|d|d|d|d|d|d|d|d|d|d]; [done|..];
    rewrite <- Hval; unfold Nat.of_uint; rewrite <- readDecimal_from_uint; reflexivity.
Qed.

Lemma nzhead_not_zero d d' : Decimal.nzhead d ≠ Decimal.D0 d'.
Proof. induction d; simpl; congruence. Qed.

(** It has no leading zero. *)
Lemma of_nat_canonical n : of_nat n = [48] ∨ head (of_nat n) ≠ Some 48.
Proof.
  unfold of_nat.
  assert (Hnorm : Nat.to_uint n = Decimal.unorm (Nat.to_uint n)).
  { rewrite <- DecimalNat.Unsigned.to_of. by rewrite DecimalNat.Unsigned.of_to. }
  rewrite Hnorm. unfold Decimal.unorm.
  pose proof (nzhead_not_zero (Nat.to_uint n)) as Hhead.
  destruct (Decimal.nzhead (Nat.to_uint n)) as [|d|d|d|d|d|d|d|d|d|d];
    [by left|by destruct (Hhead d)|right; discriminate..].
Qed.

(** The id that the code builds is the one of the specification. *)
Lemma chunkId_spec fileName index : isChunkId fileName index (chunkId fileName index).
Proof.
  exists (of_nat index). split; [done|]. split; [apply readDecimal_of_nat|].
  apply of_nat_canonical.
Qed.

Lemma writesChunksOf_spec fileName docs ev :
  writesChunksOf fileName docs ev → writesSpecIds fileName docs ev.
Proof.
  destruct ev as [| | |ids embeddings documents metadatas reply| | |]; try done.
  intros (start & Hlen & Hentries). exists start. split; [done|].
  intros k text Hk. destruct (Hentries k text Hk) as [Hid Hdoc].
  split; [|done]. eexists. split; [exact Hid|apply chunkId_spec].
Qed.
End chunk_id_facts.

Section processPDF_entries.
Context (E : env).
Import Ingest.

(** A sub-batch either reports its size and has put the ids of its chunks in
    the index, or reports 0 and has put nothing there. *)
Lemma processChunkBatch_outcome docs fileName startIndex t :
  ∃ count new,
    processChunkBatch E docs fileName startIndex t = (Ok (Some count), t ++ new)
    ∧ ((count = length docs
        ∧ idsWritten new = chunkId fileName <$> seq startIndex (length docs))
       ∨ (count = 0%nat ∧ idsWritten new = [])).
Proof.
  unfold processChunkBatch, try_catch. unfold_monad.
  destruct (imapM_ok (λ ev, isAdd ev = false)
              (chunkMetadata E docs fileName startIndex)
              (chunkMetadata_ok E docs fileName startIndex) docs 0%nat t)
    as (metas & n1 & -> & F1 & _).
  destruct (embedLoop_emits E (λ ev, isAdd ev = false)
              (length (pageContent <$> docs)) (pageContent <$> docs)
              ltac:(done) ltac:(done) 0%nat [] (t ++ n1)) as (n2 & H2 & F2).
  destruct (embedLoop E _ 0 _ [] (t ++ n1)) as [[embs|e] t2];
    simpl in H2; subst t2.
  - unfold addLoop. rewrite Nat.sub_0_r.
    destruct (addLoop_spec E
                (imap (λ idx _, chunkId fileName (startIndex + idx)) docs)
                embs (pageContent <$> docs) metas MAX_RETRIES 0%nat
                ((t ++ n1) ++ n2)) as (r & n3 & -> & Hcases);
      [done|unfold MAX_RETRIES; lia|].
    rewrite length_fmap in Hcases.
    destruct Hcases as [(-> & _ & Hids)|([e ->] & _ & _ & Hids)].
    + exists (length docs), (n1 ++ n2 ++ n3). rewrite <- !app_assoc.
      split; [done|]. left. split; [done|].
      rewrite !idsWritten_app, Hids, !idsWritten_none by done.
      apply (imap_seq docs (chunkId fileName)).
    + exists 0%nat, (n1 ++ n2 ++ n3). rewrite <- !app_assoc.
      split; [done|]. right. split; [done|].
      by rewrite !idsWritten_app, Hids, !idsWritten_none.
  - exists 0%nat, (n1 ++ n2). rewrite <- !app_assoc.
    split; [done|]. right. split; [done|].
    by rewrite !idsWritten_app, !idsWritten_none.
Qed.

(** The chunk loop adds at most the sizes of its sub-batches, and when it
    adds them all it has written the ids of all of them, in order. *)
Lemma chunkLoop_ids fileName docs :
  ∀ starts totalAdded t,
    Forall (λ i, (i < length docs)%nat) starts →
    ∃ totalAdded' new,
      chunkLoop E docs fileName starts (Some totalAdded) t = (Ok (Some totalAdded'), t ++ new)
      ∧ (totalAdded' ≤ totalAdded + length (batchIds docs fileName starts))%nat
      ∧ (totalAdded' = (totalAdded + length (batchIds docs fileName starts))%nat →
         idsWritten new = batchIds docs fileName starts).
Proof.
  induction starts as [|i starts IH]; intros totalAdded t Hlt.
  - exists totalAdded, []. rewrite app_nil_r. unfold batchIds. simpl.
    split; [done|]. split; [lia|done].
  - apply Forall_cons in Hlt as [Hi Hlt]. cbn [chunkLoop]. unfold_monad.
    destruct (processChunkBatch_outcome (take CHUNK_BATCH_SIZE (drop i docs)) fileName i t)
      as (count & n1 & -> & Hcount).
    rewrite length_take, length_drop in Hcount. unfold CHUNK_BATCH_SIZE in *.
    set (n2 := if (i + 10 <? length docs)%nat then [Sleep 100] else []).
    assert (Hwhen : (if (i + 10 <? length docs)%nat then sleep 100 else (λ t, (Ok (), t)))
                      (t ++ n1) = (Ok (), (t ++ n1) ++ n2)).
    { unfold n2. destruct (_ <? _)%nat; [done|]. by rewrite app_nil_r. }
    rewrite Hwhen. cbn [plus mbind option_bind].
    destruct (IH (totalAdded + count)%nat ((t ++ n1) ++ n2) Hlt)
      as (total' & n3 & -> & Hle & Hall).
    exists total', (n1 ++ n2 ++ n3). rewrite <- !app_assoc. split; [done|].
    assert (Hn2 : idsWritten n2 = []) by (unfold n2; by destruct (_ <? _)%nat).
    assert (Hlen : length (batchIds docs fileName (i :: starts))
                   = (10 `min` (length docs - i) + length (batchIds docs fileName starts))%nat).
    { unfold batchIds. rewrite fmap_cons. cbn [mjoin list_join].
      by rewrite length_app, length_fmap, length_seq. }
    rewrite Hlen. split.
    + destruct Hcount as [[-> _]|[-> _]]; lia.
    + intros Htotal. rewrite !idsWritten_app, Hn2.
      destruct Hcount as [[-> Hids]|[-> _]]; [|lia].
      rewrite Hids, Hall by lia. unfold batchIds. by rewrite fmap_cons.
Qed.

Lemma processPDF_entries filePath fileName index total t :
  ∃ outcome new,
    processPDF E filePath fileName index total t = (Ok outcome, t ++ new)
    ∧ Forall (writesChunksOf fileName (chunksOf E filePath fileName t)) new
    ∧ (chunksProcessed outcome = Some (length (chunksOf E filePath fileName t)) →
       idsWritten new =
       chunkId fileName <$> seq 0 (length (chunksOf E filePath fileName t))).
Proof.
  unfold processPDF, chunksOf, try_catch. unfold_monad. unfold parsePdf, remote.
  destruct (pdfParse E t filePath) as [[text|]|e].
  - set (docs := createDocuments E text _).
    destruct (negb _ || _).
    { eexists _, [_]. split; [reflexivity|]. split; [by repeat constructor|].
      simpl. intros [= <-]. done. }
    destruct (length docs =? 0)%nat eqn:Hempty.
    { eexists _, [_]. split; [reflexivity|]. split; [by repeat constructor|].
      simpl. intros [= <-]. done. }
    destruct (chunkLoop_emits E fileName docs
                (strides CHUNK_BATCH_SIZE (length docs)) (Some 0%nat)
                (t ++ [ParsePdf filePath (Ok (Some text))])) as (new & Hnew & F).
    destruct (chunkLoop_ids fileName docs
                (strides CHUNK_BATCH_SIZE (length docs)) 0%nat
                (t ++ [ParsePdf filePath (Ok (Some text))])
                (strides_lt _ _)) as (total' & new' & Hrun & _ & Hall).
    rewrite Hrun in Hnew. simpl in Hnew. apply app_inv_head in Hnew as <-.
    rewrite Hrun. eexists _, (_ :: new'). rewrite <- app_assoc.
    split; [reflexivity|]. split; [by constructor|].
    simpl. intros [= ->]. unfold batchIds, CHUNK_BATCH_SIZE in Hall.
    rewrite strides_cover in Hall. apply Hall. by rewrite length_fmap, length_seq.
  - eexists _, [_]. split; [reflexivity|]. split; [by repeat constructor|]. done.
  - eexists _, [_]. split; [reflexivity|]. split; [by repeat constructor|]. done.
Qed.

End processPDF_entries.

(** C9. [processPDF] never throws, and every entry it writes to the index
    for a document has the id [<fileName>_chunk_<j>], [j] being the
    zero-based position of the entry's chunk among the chunks of the
    document: the file name, then [_chunk_], then the decimal numeral of
    [j] without a leading zero, which is the string that [chunkId] builds.
    Two positions never share an id. When all chunks are reported
    processed, the ids written are those of the positions [0 .. n-1], each
    once, whatever the world answered on the way; so a second complete
    ingestion of the document, also in another world, writes the same
    ids. *)
Theorem processPDF_chunk_ids (E : env) filePath fileName index total t :
  let docs := chunksOf E filePath fileName t in
  ∃ outcome new,
    Ingest.processPDF E filePath fileName index total t = (Ok outcome, t ++ new)
    ∧ Forall (writesChunksOf fileName docs) new
    ∧ Forall (writesSpecIds fileName docs) new
    ∧ (∀ j, Ingest.chunkId fileName j = fileName ++ lit "_chunk_" ++ of_nat j
            ∧ readDecimal (of_nat j) = Some j
            ∧ (of_nat j = [48] ∨ head (of_nat j) ≠ Some 48)
            ∧ isChunkId fileName j (Ingest.chunkId fileName j))
    ∧ (∀ i j id, isChunkId fileName i id → isChunkId fileName j id → i = j)
    ∧ (∀ i j, Ingest.chunkId fileName i = Ingest.chunkId fileName j → i = j)
    ∧ (Ingest.chunksProcessed outcome = Some (length docs) →
       idsWritten new = Ingest.chunkId fileName <$> seq 0 (length docs)
       ∧ idsWritten new = (λ j, fileName ++ lit "_chunk_" ++ of_nat j) <$> seq 0 (length docs)
       ∧ Forall2 (isChunkId fileName) (seq 0 (length docs)) (idsWritten new)
       ∧ NoDup (idsWritten new))
    ∧ ∀ (E' : env) filePath' index' total' t',
        length (chunksOf E' filePath' fileName t') = length docs →
        Ingest.chunksProcessed outcome = Some (length docs) →
        ∀ outcome', (Ingest.processPDF E' filePath' fileName index' total' t').1 = Ok outcome' →
        Ingest.chunksProcessed outcome' = Some (length docs) →
        idsWritten (drop (length t') (Ingest.processPDF E' filePath' fileName index' total' t').2)
        = idsWritten new.
Proof.
  intros docs.
  destruct (processPDF_entries E filePath fileName index total t)
    as (outcome & new & Hrun & Hwrites & Hids).
  exists outcome, new. fold docs in Hwrites, Hids.
  split; [done|]. split; [done|].
  split; [eapply Forall_impl; [exact Hwrites|apply writesChunksOf_spec]|].
  split.
  { intros j. split; [done|]. split; [apply readDecimal_of_nat|].
    split; [apply of_nat_canonical|apply chunkId_spec]. }
  split.
  { intros i j id (d & -> & Hi & _) (d' & Heq & Hj & _).
    do 2 apply app_inv_head in Heq. subst d'. congruence. }
  split; [apply chunkId_inj|].
  split.
  { intros Hall. rewrite Hids by done. split; [done|]. split; [done|]. split.
    - apply Forall2_fmap_r, Forall_Forall2_diag, Forall_forall.
      intros j _. apply chunkId_spec.
    - apply NoDup_fmap_2; [intros i j; apply chunkId_inj|apply NoDup_seq]. }
  intros E' filePath' index' total' t' Hlen Hall outcome' Hrun' Hall'.
  rewrite Hids by done. clear Hrun Hwrites Hids.
  revert Hrun' Hall'. generalize (length docs) Hlen. clear. intros n Hlen.
  destruct (processPDF_entries E' filePath' fileName index' total' t')
    as (o & new' & Hrun & _ & Hids).
  rewrite Hrun. simpl. intros [= ->] Hall'.
  rewrite drop_app_length, Hids, Hlen; [done|]. by rewrite Hlen.
Qed.

(** The [total_chunks] of an entry is the size of the sub-batch that
    [processChunkBatch] received, whatever the document. *)
Lemma chunkMetadata_total_chunks (E : env) docs fileName startIndex idx doc t m t' :
  Ingest.chunkMetadata E docs fileName startIndex idx doc t = (Ok m, t') →
  m !! "total_chunks" = Some (VNum (num (length docs)))
  ∧ m !! "chunk_index" = Some (VNum (num (startIndex + idx)))
  ∧ m !! "title" = Some (VStr (Ingest.titleOf fileName))
  ∧ m !! "filename" = Some (VStr fileName)
  ∧ m !! "source" = Some (VStr fileName)
  ∧ m !! "processed_at" = Some (VStr (toISOString E t)).
Proof.
  intros [= <- _]. unfold Ingest.cleanMetadata. rewrite !lookup_omap.
  repeat split; reflexivity.
Qed.

(** C6 fails on the code: a document of eleven chunks is written as a
    sub-batch of ten entries whose [total_chunks] is 10 and a sub-batch of
    one entry whose [total_chunks] is 1, while the document has 11 chunks. *)
Lemma total_chunks_is_batch_size :
  let run := Ingest.processPDF elevenWorld (lit "pdfs/case_11.PDF") (lit "case_11.PDF") 0 1 [] in
  (∃ outcome, run.1 = Ok outcome ∧ Ingest.totalChunks outcome = Some 11%nat
              ∧ Ingest.chunksProcessed outcome = Some 11%nat)
  ∧ totalChunksWritten run.2 = replicate 10 (Some (VNum 10)) ++ [Some (VNum 1)].
Proof. split; [eexists; split; [vm_compute; reflexivity|done]|vm_compute; reflexivity]. Qed.

(** C7 fails on the code: a file name with a lower-case extension passes the
    discovery filter and keeps its extension in the title. *)
Lemma titleOf_lowercase_extension :
  Ingest.isCandidate (lit "smith_v_jones.pdf") = true
  ∧ Ingest.titleOf (lit "smith_v_jones.pdf") = lit "smith v jones.pdf".
Proof. split; reflexivity. Qed.

Example titleOf_uppercase_extension :
  Ingest.titleOf (lit "smith_v_jones.PDF") = lit "smith v jones".
Proof. reflexivity. Qed.

(** Only the first [.PDF] is removed, wherever it stands. *)
Example titleOf_inner_extension :
  Ingest.titleOf (lit "old.PDF_scan.PDF") = lit "old scan.PDF".
Proof. reflexivity. Qed.

(** ** The answer composer *)

Section answer_composer.
Import Query.

Lemma generateAnswer_backends_down (E : env) context question t :
  keyUnusable (GEMINI_API_KEY E) = false → backendsDown E →
  ∃ r1 r2 r3,
    generateAnswer E context question t =
      (Ok (Some (generateStructuredFallback context question)),
       t ++ [ GenerateCall (lit "gemini-1.5-flash-latest") (promptFor context question) r1;
              Sleep 1000;
              GenerateCall (lit "gemini-1.5-flash") (promptFor context question) r2;
              Sleep 1000;
              GenerateCall (lit "gemini-pro") (promptFor context question) r3 ])
    ∧ generationFails r1 ∧ generationFails r2 ∧ generationFails r3.
Proof.
  intros Hk Hdown. unfold generateAnswer. rewrite Hk.
  set (prompt := promptFor context question).
  set (t1 := t).
  pose (r1 := generateContent E t1 (lit "gemini-1.5-flash-latest") prompt).
  set (t2 := (t1 ++ [GenerateCall (lit "gemini-1.5-flash-latest") prompt r1]) ++ [Sleep 1000]).
  pose (r2 := generateContent E t2 (lit "gemini-1.5-flash") prompt).
  set (t3 := (t2 ++ [GenerateCall (lit "gemini-1.5-flash") prompt r2]) ++ [Sleep 1000]).
  pose (r3 := generateContent E t3 (lit "gemini-pro") prompt).
  exists r1, r2, r3.
  assert (H1 : generationFails r1) by apply Hdown.
  assert (H2 : generationFails r2) by apply Hdown.
  assert (H3 : generationFails r3) by apply Hdown.
  split; [|done].
  unfold modelEndpoints. cbn [tryModels length]. unfold try_catch at 1 2 3 4.
  unfold_monad. unfold axiosGenerate, remote, sleep.
  fold r1. unfold generationFails in H1.
  assert (Hsub : (3 - 1 = 2)%nat) by done. rewrite Hsub. cbn [Nat.eqb].
  assert (Hend : ∀ e : error,
             (if bool_decide (status e = Some 503%nat)
              then (λ t' : trace, (Ok (Some (generateStructuredFallback context question)), t'))
              else if bool_decide (status e = Some 429%nat)
              then (λ t', (Ok (Some (generateStructuredFallback context question)), t'))
              else (λ t', (Ok (Some (generateStructuredFallback context question)), t')))
             = (λ t', (Ok (Some (generateStructuredFallback context question)), t'))).
  { intros e. by repeat case_bool_decide. }
  destruct r1 as [[text1|]|e1]; [rewrite H1| |];
    fold t2; fold r2; unfold generationFails in H2;
    (destruct r2 as [[text2|]|e2]; [rewrite H2| |]);
    fold t3; fold r3; unfold generationFails in H3;
    (destruct r3 as [[text3|]|e3]; [rewrite H3| |]);
    rewrite ?Hend; unfold t3, t2, t1; by rewrite <- !app_assoc.
Qed.
End answer_composer.

Section fallback.
Import Query.

Lemma generateStructuredFallback_nonempty context question :
  generateStructuredFallback context question ≠ [].
Proof. unfold generateStructuredFallback. discriminate. Qed.

Lemma noKeyAnswer_differs context question :
  noKeyAnswer context question ≠ generateStructuredFallback context question.
Proof.
  intros H. apply (f_equal (λ s : jsstring, s !! 28%nat)) in H.
  unfold noKeyAnswer, generateStructuredFallback in H. discriminate.
Qed.

Lemma generateAnswer_no_key (E : env) context question t :
  keyUnusable (GEMINI_API_KEY E) = true →
  generateAnswer E context question t = (Ok (Some (noKeyAnswer context question)), t).
Proof. intros Hk. unfold generateAnswer, try_catch. by rewrite Hk. Qed.

Lemma noKeyAnswer_nonempty context question : noKeyAnswer context question ≠ [].
Proof. unfold noKeyAnswer. discriminate. Qed.

(** C8, as amended. When no generation backend is reachable and the
    credential is usable, the answer is the structured fallback, a
    function of the context and the question: after the three failed
    generation calls nothing more is sent. With an unusable credential
    the answer is the inline text instead, and nothing is sent at all.
    Either way the answer is not empty, and any other run on the same
    context and question, in whatever world without a reachable backend
    and with a credential of the same standing, gives the same answer; a
    run with a credential of the other standing gives another answer. *)
Theorem structured_fallback_pure (E : env) context question t :
  backendsDown E →
  ∃ answer new,
    generateAnswer E context question t = (Ok (Some answer), t ++ new)
    ∧ (if keyUnusable (GEMINI_API_KEY E)
       then answer = noKeyAnswer context question ∧ new = []
       else answer = generateStructuredFallback context question
            ∧ ∃ r1 r2 r3,
                new = [ GenerateCall (lit "gemini-1.5-flash-latest")
                          (promptFor context question) r1;
                        Sleep 1000;
                        GenerateCall (lit "gemini-1.5-flash")
                          (promptFor context question) r2;
                        Sleep 1000;
                        GenerateCall (lit "gemini-pro") (promptFor context question) r3 ]
                ∧ generationFails r1 ∧ generationFails r2 ∧ generationFails r3)
    ∧ answer ≠ []
    ∧ generateStructuredFallback context question ≠ []
    ∧ (∀ E' t', backendsDown E' →
         keyUnusable (GEMINI_API_KEY E') = keyUnusable (GEMINI_API_KEY E) →
         (generateAnswer E' context question t').1 = Ok (Some answer))
    ∧ (∀ E' t', backendsDown E' →
         keyUnusable (GEMINI_API_KEY E') ≠ keyUnusable (GEMINI_API_KEY E) →
         (generateAnswer E' context question t').1 ≠ Ok (Some answer)).
Proof.
  intros Hdown.
  assert (Hother : ∀ E' t', backendsDown E' →
            (generateAnswer E' context question t').1 =
            Ok (Some (if keyUnusable (GEMINI_API_KEY E')
                      then noKeyAnswer context question
                      else generateStructuredFallback context question))).
  { intros E' t' Hdown'. destruct (keyUnusable (GEMINI_API_KEY E')) eqn:Hk'.
    - by rewrite generateAnswer_no_key.
    - destruct (generateAnswer_backends_down E' context question t' Hk' Hdown')
        as (? & ? & ? & -> & _).
      done. }
  destruct (keyUnusable (GEMINI_API_KEY E)) eqn:Hk.
  - exists (noKeyAnswer context question), []. rewrite app_nil_r.
    split; [by apply generateAnswer_no_key|]. split; [done|].
    split; [apply noKeyAnswer_nonempty|].
    split; [apply generateStructuredFallback_nonempty|].
    split; intros E' t' Hdown' Hk'; rewrite (Hother E' t' Hdown').
    + by rewrite Hk'.
    + destruct (keyUnusable (GEMINI_API_KEY E')); [done|]. intros H.
      pose proof (f_equal (λ r : result (option jsstring),
                             match r with Ok (Some a) => a | _ => [] end) H) as H'.
      exact (noKeyAnswer_differs context question (eq_sym H')).
  - destruct (generateAnswer_backends_down E context question t Hk Hdown)
      as (r1 & r2 & r3 & Hrun & Hfails).
    exists (generateStructuredFallback context question). eexists.
    split; [exact Hrun|]. split; [split; [done|]; by exists r1, r2, r3|].
    split; [apply generateStructuredFallback_nonempty|].
    split; [apply generateStructuredFallback_nonempty|].
    split; intros E' t' Hdown' Hk'; rewrite (Hother E' t' Hdown').
    + by rewrite Hk'.
    + destruct (keyUnusable (GEMINI_API_KEY E')); [|done]. intros H.
      pose proof (f_equal (λ r : result (option jsstring),
                             match r with Ok (Some a) => a | _ => [] end) H) as H'.
      exact (noKeyAnswer_differs context question H').
Qed.

Lemma structured_fallback_pure_witness :
  ∃ answer new,
    generateAnswer (outageWorld sampleKey) sampleContext (lit "Is the contract void?") []
      = (Ok (Some answer), [] ++ new)
    ∧ (answer = generateStructuredFallback sampleContext (lit "Is the contract void?")
       ∧ ∃ r1 r2 r3,
           new = [ GenerateCall (lit "gemini-1.5-flash-latest")
                     (promptFor sampleContext (lit "Is the contract void?")) r1;
                   Sleep 1000;
                   GenerateCall (lit "gemini-1.5-flash")
                     (promptFor sampleContext (lit "Is the contract void?")) r2;
                   Sleep 1000;
                   GenerateCall (lit "gemini-pro")
                     (promptFor sampleContext (lit "Is the contract void?")) r3 ]
           ∧ generationFails r1 ∧ generationFails r2 ∧ generationFails r3)
    ∧ answer ≠ []
    ∧ generateStructuredFallback sampleContext (lit "Is the contract void?") ≠ []
    ∧ (∀ E' t', backendsDown E' →
         keyUnusable (GEMINI_API_KEY E') = false →
         (generateAnswer E' sampleContext (lit "Is the contract void?") t').1
         = Ok (Some answer))
    ∧ (∀ E' t', backendsDown E' →
         keyUnusable (GEMINI_API_KEY E') ≠ false →
         (generateAnswer E' sampleContext (lit "Is the contract void?") t').1
         ≠ Ok (Some answer)).
Proof.
  exact (structured_fallback_pure (outageWorld sampleKey) sampleContext
           (lit "Is the contract void?") [] (λ _ _ _, I)).
Defined.

(** C8, as stated, fails: in a world without a credential no generation
    backend is reachable and nothing is sent, yet the answer is the inline
    text and not the structured fallback; and of two runs on the same
    context and question without a reachable backend, one with a
    credential and one without, the answers differ. *)
Lemma unreachable_backends_not_structured_fallback :
  backendsDown (outageWorld None) ∧ backendsDown (outageWorld sampleKey)
  ∧ generateAnswer (outageWorld None) sampleContext (lit "Is the contract void?") []
    = (Ok (Some (noKeyAnswer sampleContext (lit "Is the contract void?"))), [])
  ∧ noKeyAnswer sampleContext (lit "Is the contract void?")
    ≠ generateStructuredFallback sampleContext (lit "Is the contract void?")
  ∧ (generateAnswer (outageWorld sampleKey) sampleContext (lit "Is the contract void?") []).1
    ≠ (generateAnswer (outageWorld None) sampleContext (lit "Is the contract void?") []).1.
Proof.
  split; [intros t model prompt; exact I|]. split; [intros t model prompt; exact I|].
  split; [by apply generateAnswer_no_key|]. split; [apply noKeyAnswer_differs|].
  rewrite (generateAnswer_no_key (outageWorld None)) by done.
  destruct (generateAnswer_backends_down (outageWorld sampleKey) sampleContext
              (lit "Is the contract void?") [] eq_refl (λ _ _ _, I))
    as (? & ? & ? & -> & _).
  intros H.
  pose proof (f_equal (λ r : result (option jsstring),
                         match r with Ok (Some a) => a | _ => [] end) H) as H'.
  exact (noKeyAnswer_differs _ _ (eq_sym H')).
Qed.



End fallback.

(** ** The query handler *)

Section query_handler.
Context (E : env).
Import Query.

(** A question that is not a string of at least 3 trimmed characters is
    answered at once, before anything is sent. *)
Lemma queryHandler_validation req t :
  tooShort (questionOf req) = true →
  queryHandler E req t = (Ok validationError, t).
Proof.
  unfold queryHandler, questionOf, try_catch. intros Hshort.
  destruct (default VUndefined (requestBody req !! "question")) as [| | | |q|]; try done.
  simpl in Hshort. by rewrite Hshort, orb_true_r.
Qed.

(** C4. A question of fewer than 3 characters once trimmed is rejected
    with status 400 and [success = false], and the history is unchanged:
    no embedding call and no index query is issued. *)
Theorem short_question_rejected req q t :
  requestBody req !! "question" = Some (VStr q) →
  (length (trim q) < 3)%nat →
  queryHandler E req t = (Ok validationError, t)
  ∧ statusCode validationError = 400%nat
  ∧ success (body validationError) = false
  ∧ message (body validationError)
    = Some (lit "Question must be at least 3 characters long").
Proof.
  intros Hq Hlen. split; [|done]. apply queryHandler_validation.
  unfold questionOf. rewrite Hq. simpl. by apply Nat.ltb_lt.
Qed.

(** C10. When the [question] field is absent, null or not a string, the
    handler gives the rejection it gives for a too short string (status
    400, [success = false], the same message); it does not throw and the
    history is unchanged: no embedding call and no index query. *)
Theorem non_string_question_rejected req t :
  (∀ q, requestBody req !! "question" ≠ Some (VStr q)) →
  queryHandler E req t = (Ok validationError, t)
  ∧ statusCode validationError = 400%nat
  ∧ success (body validationError) = false
  ∧ message (body validationError)
    = Some (lit "Question must be at least 3 characters long")
  ∧ queryHandler E (requestWith (VStr (lit "hi"))) t = (Ok validationError, t).
Proof.
  intros Hq. split; [|done]. apply queryHandler_validation.
  unfold questionOf. destruct (requestBody req !! "question") as [[| | | |q|]|] eqn:Hv; try done.
  by destruct (Hq q).
Qed.
End query_handler.

Lemma short_question_rejected_witness :
  Query.queryHandler downWorld (requestWith (VStr (lit "  hi  "))) []
    = (Ok validationError, [])
  ∧ Query.statusCode validationError = 400%nat
  ∧ Query.success (Query.body validationError) = false
  ∧ Query.message (Query.body validationError)
    = Some (lit "Question must be at least 3 characters long").
Proof.
  apply (short_question_rejected downWorld (requestWith (VStr (lit "  hi  "))) (lit "  hi  ") []).
  - reflexivity.
  - vm_compute. lia.
Defined.

Lemma non_string_question_rejected_witness :
  Query.queryHandler downWorld (requestWith VNull) [] = (Ok validationError, [])
  ∧ Query.statusCode validationError = 400%nat
  ∧ Query.success (Query.body validationError) = false
  ∧ Query.message (Query.body validationError)
    = Some (lit "Question must be at least 3 characters long")
  ∧ Query.queryHandler downWorld (requestWith (VStr (lit "hi"))) [] = (Ok validationError, []).
Proof.
  apply (non_string_question_rejected downWorld (requestWith VNull) []).
  intros q. vm_compute. discriminate.
Defined.

Example absent_question_rejected :
  Query.queryHandler downWorld (Query.Request None ∅) [] = (Ok validationError, []).
Proof. reflexivity. Qed.

Example numeric_question_rejected :
  Query.queryHandler downWorld (requestWith (VNum 12345)) [] = (Ok validationError, []).
Proof. reflexivity. Qed.

Example array_question_rejected :
  Query.queryHandler downWorld (requestWith (VObject (lit "a,b,c"))) []
  = (Ok validationError, []).
Proof. reflexivity. Qed.

(** ** Retrieval filtering *)

Section retrieval.
Import Query.

Lemma filterIndex_ext {A} (p p' : nat → bool) (l : list A) :
  (∀ i, p i = p' i) → ∀ i, filterIndex p i l = filterIndex p' i l.
Proof.
  intros Hp. induction l as [|x l IH]; intros i; simpl; [done|].
  by rewrite Hp, IH.
Qed.





Lemma question_accepted q :
  (3 ≤ length (trim q))%nat →
  negb (truthy (VStr q)) || (length (trim q) <? 3)%nat = false.
Proof.
  intros Hlen. destruct q as [|c q]; [simpl in Hlen; lia|].
  simpl (negb _). by destruct (Nat.ltb_spec (length (trim (c :: q))) 3); [lia|].
Qed.



(** When the index returns no document at all, the handler answers with
    the no-relevant-documents text, also with [matches = 0]. *)
Lemma queryHandler_no_documents (E : env) req q t queryEmbedding t1 results :
  requestBody req !! "question" = Some (VStr q) →
  (3 ≤ length (trim q))%nat →
  generateEmbedding E q t = (Ok queryEmbedding, t1) →
  collectionQuery E t1 queryEmbedding 5 = Ok results →
  documents0 results = None ∨ documents0 results = Some [] →
  queryHandler E req t =
    (Ok (Response 200 (Json true None (Some noDocumentsAnswer) (Some 0%nat))),
     t1 ++ [IndexQuery queryEmbedding 5 (Ok results)]).
Proof.
  intros Hq Hlen Hemb Hquery Hdocs.
  unfold queryHandler, try_catch at 1. rewrite Hq. cbn [default from_option id].
  rewrite (question_accepted q Hlen). unfold_monad. rewrite Hemb.
  unfold collection_query, remote. rewrite Hquery. by destruct Hdocs as [-> | ->].
Qed.
End retrieval.

(** ** The models on examples *)

Example keyUnusable_examples :
  keyUnusable None = true
  ∧ keyUnusable (Some []) = true
  ∧ keyUnusable (Some (lit "your-actual-gemini-api-key-here")) = true
  ∧ keyUnusable sampleKey = false.
Proof. repeat split; reflexivity. Qed.

(** The fallback drops the empty piece before the first header and then
    skips the first of the remaining pieces: of a context of one document
    it extracts nothing. *)
Example fallback_one_document :
  Query.generateStructuredFallback sampleContext (lit "Is the contract void?") =
  lit "Based on the legal documents, here's what I found regarding "
    ++ Query.dq ++ lit "Is the contract void?" ++ Query.dq ++ lit ":"
    ++ Query.nl ++ Query.nl ++ lit "---" ++ Query.nl ++ [55357; 56481]
    ++ lit " This information is extracted directly from 0 relevant legal document(s). For more detailed analysis, please ensure the AI service is available.".
Proof. vm_compute. reflexivity. Qed.

Example fallback_two_documents :
  Query.generateStructuredFallback
    (sampleContext ++ Query.nl ++ lit "[Document 2: Roe v Wade]" ++ Query.nl
       ++ lit "Short. The second sentence is long enough to be picked up!" ++ Query.nl
       ++ lit "---")
    (lit "what?") =
  lit "Based on the legal documents, here's what I found regarding "
    ++ Query.dq ++ lit "what?" ++ Query.dq ++ lit ":" ++ Query.nl ++ Query.nl
    ++ [55357; 56516] ++ lit " **Roe v Wade**" ++ Query.nl
    ++ lit "The second sentence is long enough to be picked up" ++ Query.nl ++ Query.nl
    ++ lit "---" ++ Query.nl ++ [55357; 56481]
    ++ lit " This information is extracted directly from 1 relevant legal document(s). For more detailed analysis, please ensure the AI service is available.".
Proof. vm_compute. reflexivity. Qed.

Example noKeyAnswer_example :
  (Query.generateAnswer (outageWorld None) (lit "CONTEXT") (lit "q?") []) =
  (Ok (Some (lit "Based on the legal documents found:" ++ Query.nl ++ Query.nl
             ++ lit "CONTEXT" ++ Query.nl ++ Query.nl
             ++ lit "Relevant information for: " ++ Query.dq ++ lit "q?" ++ Query.dq)),
   []).
Proof. reflexivity. Qed.

(** A full query: two of three matches pass the filter and the first
    backend answers. *)
Example query_answered :
  let world := sampleWorld sampleKey true true
    (QueryResults (Some [lit "first text"; lit "second text"; lit "third text"])
       [Some (StoredMetadata (Some (lit "A"))); Some (StoredMetadata (Some (lit "B")));
        Some (StoredMetadata (Some (lit "C")))]
       [0.2%float; 1.6%float; 0.8%float]) [] in
  (Query.queryRoute world (requestWith (VStr (lit "contract disputes"))) []).1 =
  Ok (Query.Response 200
        (Query.Json true None (Some (lit "The court held for the tenant.")) (Some 2%nat))).
Proof. vm_compute. reflexivity. Qed.

Example query_without_token :
  Query.queryRoute downWorld (Query.Request None ∅) [] =
  (Ok (Query.failure 401 "No token"), []).
Proof. reflexivity. Qed.

(** When the embedding endpoint is down, a sub-batch reports 0 and the
    document is still reported as processed, with no chunk added. *)
Example processPDF_embedding_down :
  let world := sampleWorld sampleKey false true noResults elevenChunks in
  let run := Ingest.processPDF world (lit "pdfs/case_11.PDF") (lit "case_11.PDF") 0 1 [] in
  (∃ outcome, run.1 = Ok outcome ∧ Ingest.success outcome = true
              ∧ Ingest.chunksProcessed outcome = Some 0%nat)
  ∧ countAdds run.2 = 0%nat.
Proof. split; [eexists; split; [vm_compute; reflexivity|done]|vm_compute; reflexivity]. Qed.

(** * Further properties *)

(** ** Metadata cleaning *)

Section clean_metadata.
Import Ingest.

Lemma cleanValue_primitive v w : cleanValue v = Some w → isPrimitive w = true.
Proof. destruct v; intros [= <-]; done. Qed.

Lemma cleanValue_fixed v w : cleanValue v = Some w → cleanValue w = Some w.
Proof. destruct v; intros [= <-]; done. Qed.

(** X1. [cleanMetadata] keeps exactly the keys whose value is neither null
    nor undefined; every value it returns is a string, a number or a
    boolean, namely the given value or, for an object, its string form; and
    cleaning a cleaned object changes nothing. *)
Theorem cleanMetadata_spec (metadata : gmap string jsval) :
  (∀ key v, cleanMetadata metadata !! key = Some v →
     isPrimitive v = true
     ∧ ∃ v0, metadata !! key = Some v0
             ∧ (v0 = v ∨ ∃ repr, v0 = VObject repr ∧ v = VStr repr))
  ∧ (∀ key, cleanMetadata metadata !! key = None ↔
       metadata !! key = None ∨ metadata !! key = Some VNull
       ∨ metadata !! key = Some VUndefined)
  ∧ cleanMetadata (cleanMetadata metadata) = cleanMetadata metadata.
Proof.
  unfold cleanMetadata. split; [|split].
  - intros key v. rewrite lookup_omap.
    destruct (metadata !! key) as [v0|]; [|done]. simpl. intros Hv.
    split; [by eapply cleanValue_primitive|]. exists v0. split; [done|].
    destruct v0; simplify_eq/=; eauto.
  - intros key. rewrite lookup_omap.
    destruct (metadata !! key) as [[]|]; simpl;
      (split; [intros; first [discriminate | auto] | intros [?|[?|?]]; congruence]).
  - apply map_eq. intros key. rewrite !lookup_omap.
    destruct (metadata !! key) as [v0|]; [|done]. simpl.
    destruct (cleanValue v0) as [w|] eqn:Hw; [|done]. simpl.
    by eapply cleanValue_fixed.
Qed.
End clean_metadata.

(** ** The embedding client and the write loop of the ingestion pipeline *)

Section ingest_retries.
Import Ingest.

(** X2. With an unusable credential the ingestion [generateEmbedding] makes
    no remote call, yet it goes through its three retries: it sleeps 1000,
    2000 and 3000 ms and then throws the configuration error. *)
Theorem generateEmbedding_unusable_key (E : env) text t :
  keyUnusable (GEMINI_API_KEY E) = true →
  ∃ new,
    generateEmbedding E text 0 t =
      (Throw (Error (lit "Valid GEMINI_API_KEY is required for manual embeddings") None),
       t ++ new)
    ∧ embedAttempts new = 0%nat
    ∧ sleeps new = [1000; 2000; 3000]%nat.
Proof.
  intros Hk. exists [Sleep 1000; Sleep 2000; Sleep 3000].
  by rewrite generateEmbedding_no_key.
Qed.

Lemma generateEmbedding_unusable_key_witness :
  ∃ new,
    generateEmbedding (outageWorld None) (lit "some chunk") 0 [] =
      (Throw (Error (lit "Valid GEMINI_API_KEY is required for manual embeddings") None),
       [] ++ new)
    ∧ embedAttempts new = 0%nat
    ∧ sleeps new = [1000; 2000; 3000]%nat.
Proof.
  exact (generateEmbedding_unusable_key (outageWorld None) (lit "some chunk") [] eq_refl).
Defined.

Lemma addLoop_from_trace (E : env) ids embeddings documents metadatas :
  ∀ left retries t,
    left = (MAX_RETRIES - retries)%nat → (0 < left)%nat →
    ∃ fails final,
      addLoop_from E left retries ids embeddings documents metadatas t =
        (match final with
         | Ok _ => Ok (Some (length documents))
         | Throw e => Throw e
         end,
         t ++ writeBackoff ids embeddings documents metadatas retries fails
           ++ [IndexAdd ids embeddings documents metadatas final])
      ∧ (length fails < left)%nat
      ∧ (failed final → S (length fails) = left).
Proof.
  induction left as [|left IH]; intros retries t Hleft Hpos; [lia|].
  cbn [addLoop_from]. unfold_monad. unfold collection_add, remote.
  destruct (collectionAdd E t ids embeddings documents metadatas) as [[]|e] eqn:Hadd.
  - exists [], (Ok ()). simpl. split; [done|]. split; [lia|]. intros [e He]. done.
  - destruct (Nat.leb_spec MAX_RETRIES (retries + 1)) as [Hge|Hlt].
    + exists [], (Throw e). simpl. split; [done|]. split; [lia|]. intros _. lia.
    + unfold sleep at 1.
      destruct (IH (retries + 1)%nat
                  ((t ++ [IndexAdd ids embeddings documents metadatas (Throw e)])
                     ++ [Sleep (1000 * (retries + 1))]))
        as (fails & final & Hrun & Hlen & Hlast); [lia|lia|].
      exists (e :: fails), final. rewrite Hrun. cbn [writeBackoff length].
      rewrite <- !app_assoc, Nat.add_1_r. simpl.
      split; [done|]. split; [lia|]. intros Hf. by rewrite Hlast.
Qed.

Lemma countAdds_writeBackoff ids embeddings documents metadatas k fails final :
  countAdds (writeBackoff ids embeddings documents metadatas k fails
               ++ [IndexAdd ids embeddings documents metadatas final])
  = S (length fails).
Proof.
  unfold countAdds. revert k. induction fails as [|e fails IH]; intros k; simpl; [done|].
  by rewrite IH.
Qed.

Lemma sleeps_writeBackoff ids embeddings documents metadatas k fails final :
  sleeps (writeBackoff ids embeddings documents metadatas k fails
            ++ [IndexAdd ids embeddings documents metadatas final])
  = (λ j, 1000 * j)%nat <$> seq (S k) (length fails).
Proof.
  unfold sleeps. revert k. induction fails as [|e fails IH]; intros k; simpl; [done|].
  rewrite IH. by rewrite Nat.add_1_r.
Qed.

(** X3. The write loop of [processChunkBatch] calls [collection.add] at
    most [MAX_RETRIES = 3] times, always with the same four arrays: the
    writes in [fails] fail, the [k]-th of them followed by a sleep of
    [1000 * k] ms; a successful last write returns the number of documents,
    a failed one rethrows its error, which happens only at the third
    write. *)
Theorem addLoop_retry_policy (E : env) ids embeddings documents metadatas t :
  ∃ fails final,
    let new := writeBackoff ids embeddings documents metadatas 0 fails
                 ++ [IndexAdd ids embeddings documents metadatas final] in
    addLoop E 0 ids embeddings documents metadatas t =
      (match final with
       | Ok _ => Ok (Some (length documents))
       | Throw e => Throw e
       end, t ++ new)
    ∧ countAdds new = S (length fails)
    ∧ (countAdds new ≤ MAX_RETRIES)%nat
    ∧ (failed final → countAdds new = MAX_RETRIES)
    ∧ sleeps new = (λ k, 1000 * k)%nat <$> seq 1 (length fails).
Proof.
  destruct (addLoop_from_trace E ids embeddings documents metadatas MAX_RETRIES 0%nat t)
    as (fails & final & Hrun & Hlen & Hlast); [done|unfold MAX_RETRIES; lia|].
  exists fails, final. cbv zeta.
  rewrite countAdds_writeBackoff, sleeps_writeBackoff.
  unfold addLoop. rewrite Nat.sub_0_r.
  split; [done|]. split; [done|]. split; [lia|]. split; [|done].
  intros Hf. by apply Hlast.
Qed.
End ingest_retries.

(** ** The sub-batches written by the ingestion pipeline *)

Section ingest_writes.
Context (E : env).
Import Ingest.

Lemma emits_impl {A} (P Q : event → Prop) (m : M A) :
  (∀ ev, P ev → Q ev) → emits P m → emits Q m.
Proof.
  intros H Hm t. destruct (Hm t) as (new & Hnew & F). exists new.
  split; [done|]. eapply Forall_impl; eauto.
Qed.

Lemma embedLoop_length n :
  ∀ documents i embeddings t embeddings' t',
    embedLoop E n i documents embeddings t = (Ok embeddings', t') →
    length embeddings' = (length embeddings + length documents)%nat.
Proof.
  induction documents as [|text rest IH]; intros i embeddings t embeddings' t'.
  - intros [= <- _]. simpl. lia.
  - cbn [embedLoop]. unfold_monad.
    destruct (generateEmbedding E text 0 t) as [[v|e] t1]; [|done].
    destruct ((if (i <? n - 1)%nat then sleep 1000 else (λ t, (Ok (), t))) t1)
      as [[[]|e] t2]; [|done].
    intros Hrun. apply IH in Hrun. rewrite Hrun, length_app. simpl. lia.
Qed.

(** The events of [processChunkBatch], when the arrays of its writes are
    known to have one element per chunk of the sub-batch. *)
Lemma processChunkBatch_arrays (P : event → Prop) docs fileName startIndex :
  (∀ iso, P (Now iso)) → (∀ x r, P (EmbedCall x r)) → (∀ ms, P (Sleep ms)) →
  (∀ ids embeddings documents metadatas r,
     length ids = length docs → length embeddings = length docs →
     length documents = length docs → length metadatas = length docs →
     P (IndexAdd ids embeddings documents metadatas r)) →
  emits P (processChunkBatch E docs fileName startIndex).
Proof.
  intros Hn Hc Hs Ha t. unfold processChunkBatch, try_catch. unfold_monad.
  destruct (imapM_ok P (chunkMetadata E docs fileName startIndex))
    with (l := docs) (i := 0%nat) (t := t) as (metas & n1 & -> & F1 & Hmetas).
  { intros i x t0. eexists _, [Now _]. split; [reflexivity|]. by repeat constructor. }
  destruct (embedLoop_emits E P (length (pageContent <$> docs)) (pageContent <$> docs)
              Hc Hs 0%nat [] (t ++ n1)) as (n2 & H2 & F2).
  destruct (embedLoop E _ 0 _ [] (t ++ n1)) as [[embs|e] t2] eqn:Hemb;
    simpl in H2; subst t2.
  - apply embedLoop_length in Hemb. rewrite length_fmap in Hemb. simpl in Hemb.
    destruct (addLoop_emits E P
                (imap (λ idx _, chunkId fileName (startIndex + idx)) docs)
                embs (pageContent <$> docs) metas) with (left := (MAX_RETRIES - 0)%nat)
                (retries := 0%nat) (t := (t ++ n1) ++ n2) as (n3 & H3 & F3).
    { intros r. apply Ha; [by rewrite length_imap|done|by rewrite length_fmap|done]. }
    { done. }
    unfold addLoop.
    destruct (addLoop_from E _ 0 _ embs _ metas ((t ++ n1) ++ n2)) as [[v|e] t3];
      simpl in H3; subst t3; exists (n1 ++ n2 ++ n3); rewrite <- !app_assoc;
      (split; [done|]); by rewrite !Forall_app.
  - exists (n1 ++ n2). rewrite <- !app_assoc. split; [done|]. by rewrite Forall_app.
Qed.

(** X4. Every call of [collection.add] that [processChunkBatch] makes
    carries four arrays of the size of the sub-batch: one id, one
    embedding, one text and one metadata object per chunk. *)
Theorem processChunkBatch_parallel_arrays docs fileName startIndex :
  emits (writesEntries (length docs)) (processChunkBatch E docs fileName startIndex).
Proof. by apply processChunkBatch_arrays. Qed.

Lemma chunkLoop_bounded fileName docs :
  ∀ starts totalAdded,
    Forall (λ i, (i < length docs)%nat) starts →
    emits boundedWrite (chunkLoop E docs fileName starts totalAdded).
Proof.
  induction starts as [|i starts IH]; intros totalAdded Hlt; cbn [chunkLoop].
  - apply emits_ret.
  - apply Forall_cons in Hlt as [Hi Hlt]. apply emits_bind.
    { apply processChunkBatch_arrays; try done.
      intros ids embeddings documents metadatas r Hids Hembs Hdocs Hmetas. simpl.
      rewrite length_take, length_drop in *. unfold CHUNK_BATCH_SIZE in *. lia. }
    intros batchAdded. apply emits_bind; [|intros; by apply IH].
    apply emits_when. by apply emits_sleep.
Qed.

(** X5. Every write that [processPDF] makes to the index has at least one
    and at most [CHUNK_BATCH_SIZE = 10] entries, with one id, one embedding
    and one metadata object per text. *)
Theorem processPDF_bounded_writes filePath fileName index total :
  emits boundedWrite (processPDF E filePath fileName index total).
Proof.
  unfold processPDF. apply emits_try_catch; [|intros; apply emits_ret].
  apply emits_bind; [by apply emits_remote|]. intros [text|]; [|apply emits_throw].
  destruct (negb _ || _); [apply emits_throw|].
  destruct (length _ =? 0)%nat; [apply emits_throw|].
  apply emits_bind; [|intros; apply emits_ret].
  apply chunkLoop_bounded, strides_lt.
Qed.

Lemma generateEmbedding_first_try text t values :
  keyUnusable (GEMINI_API_KEY E) = false →
  embedContent E t text = Ok (EmbeddingField values) →
  generateEmbedding E text 0 t =
    (Ok values, t ++ [EmbedCall text (Ok (EmbeddingField values))]).
Proof.
  intros Hk Hreply. unfold generateEmbedding. rewrite Nat.sub_0_r.
  unfold MAX_RETRIES. cbn [generateEmbedding_from]. unfold try_catch.
  rewrite embedRequest_run by done. by rewrite Hreply.
Qed.

Lemma embedLoop_paced n :
  keyUnusable (GEMINI_API_KEY E) = false → embeddingUp E →
  ∀ documents i embeddings t,
    (i + length documents)%nat = n →
    ∃ embeddings' new,
      embedLoop E n i documents embeddings t = (Ok embeddings', t ++ new)
      ∧ embedTexts new = documents
      ∧ sleeps new = replicate (length documents - 1) 1000%nat
      ∧ embedAttempts new = length documents.
Proof.
  intros Hk Hup. induction documents as [|text rest IH]; intros i embeddings t Hn.
  - exists embeddings, []. by rewrite app_nil_r.
  - cbn [embedLoop]. unfold_monad. destruct (Hup t text) as [values Hreply].
    rewrite (generateEmbedding_first_try text t values Hk Hreply).
    simpl in Hn.
    destruct rest as [|text' rest'].
    + replace (i <? n - 1)%nat with false by (symmetry; apply Nat.ltb_ge; simpl in Hn; lia).
      cbn [embedLoop]. eexists _, [_]. split; [reflexivity|]. done.
    + replace (i <? n - 1)%nat with true by (symmetry; apply Nat.ltb_lt; simpl in Hn; lia).
      unfold sleep at 1.
      destruct (IH (S i) (embeddings ++ [values])
                  ((t ++ [EmbedCall text (Ok (EmbeddingField values))]) ++ [Sleep 1000]))
        as (embs & new & -> & Htexts & Hsleeps & Hcalls); [lia|].
      exists embs, (EmbedCall text (Ok (EmbeddingField values)) :: Sleep 1000 :: new).
      rewrite <- !app_assoc. split; [done|].
      change (embedTexts (?a :: ?b :: new)) with (text :: embedTexts new).
      change (sleeps (?a :: ?b :: new)) with (1000%nat :: sleeps new).
      change (embedAttempts (?a :: ?b :: new)) with (S (embedAttempts new)).
      rewrite Htexts, Hsleeps, Hcalls. cbn [length]. by rewrite !Nat.sub_succ, Nat.sub_0_r.
Qed.

(** X6. When the embedding endpoint answers every call, the embedding loop
    of [processChunkBatch] calls it once per chunk, in the order of the
    chunks, and sleeps 1000 ms between two consecutive calls and not after
    the last: [n] calls and [n - 1] sleeps for [n] chunks. *)
Theorem embedLoop_pacing documents t :
  keyUnusable (GEMINI_API_KEY E) = false → embeddingUp E →
  ∃ embeddings new,
    embedLoop E (length documents) 0 documents [] t = (Ok embeddings, t ++ new)
    ∧ embedTexts new = documents
    ∧ embedAttempts new = length documents
    ∧ sleeps new = replicate (length documents - 1) 1000%nat
    ∧ length embeddings = length documents.
Proof.
  intros Hk Hup.
  destruct (embedLoop_paced (length documents) Hk Hup documents 0%nat [] t)
    as (embs & new & Hrun & Htexts & Hsleeps & Hcalls); [done|].
  exists embs, new. repeat split; try done.
  by apply embedLoop_length in Hrun.
Qed.
End ingest_writes.

Lemma embedLoop_pacing_witness :
  ∃ embeddings new,
    Ingest.embedLoop elevenWorld (length elevenChunks) 0 elevenChunks [] []
      = (Ok embeddings, [] ++ new)
    ∧ embedTexts new = elevenChunks
    ∧ embedAttempts new = length elevenChunks
    ∧ sleeps new = replicate (length elevenChunks - 1) 1000%nat
    ∧ length embeddings = length elevenChunks.
Proof.
  apply (embedLoop_pacing elevenWorld elevenChunks []).
  - reflexivity.
  - intros t text. by eexists.
Defined.

(** ** Outcomes of [processPDF] *)

Section processPDF_outcomes.
Context (E : env).
Import Ingest.

Lemma trim_nil : trim [] = [].
Proof. reflexivity. Qed.

(** X7. A document is turned away before any embedding call or index
    write when it cannot be read, when its text is missing or has fewer
    than 100 characters once trimmed, or when the splitter returns no
    chunk: [processPDF] does not throw, it resolves to a failure with the
    reason and [chunksProcessed = 0], and only the read is in the history. *)
Theorem processPDF_turns_away filePath fileName index total t :
  let docsOf text := createDocuments E text (list_to_map [
        ("filename", VStr fileName); ("source", VStr fileName);
        ("title", VStr (titleOf fileName)) ]) in
  let reason :=
    match pdfParse E t filePath with
    | Throw e => Some (message e)
    | Ok None => Some (lit "No significant text found in PDF")
    | Ok (Some text) =>
        if (length (trim text) <? 100)%nat then Some (lit "No significant text found in PDF")
        else if (length (docsOf text) =? 0)%nat then Some (lit "No chunks created from PDF")
        else None
    end in
  ∀ msg, reason = Some msg →
    processPDF E filePath fileName index total t =
      (Ok (PdfOutcome false fileName (Some 0%nat) None (Some msg)),
       t ++ [ParsePdf filePath (pdfParse E t filePath)]).
Proof.
  intros docsOf reason msg. subst reason.
  unfold processPDF, try_catch. unfold_monad. unfold parsePdf, remote.
  destruct (pdfParse E t filePath) as [[text|]|e].
  - fold (docsOf text).
    destruct (Nat.ltb_spec (length (trim text)) 100) as [Hshort|Hlong].
    + intros [= <-]. by rewrite orb_true_r.
    + assert (Ht : truthy (VStr text) = true).
      { destruct text; [simpl in Hlong; lia|done]. }
      rewrite Ht. simpl negb. simpl orb.
      destruct (length (docsOf text) =? 0)%nat; [|done]. by intros [= <-].
  - by intros [= <-].
  - by intros [= <-].
Qed.

Lemma length_batchIds_strides fileName docs :
  length (batchIds docs fileName (strides CHUNK_BATCH_SIZE (length docs))) = length docs.
Proof.
  unfold batchIds, CHUNK_BATCH_SIZE. by rewrite strides_cover, length_fmap, length_seq.
Qed.

(** X8. A document whose text has at least 100 characters once trimmed and
    that the splitter cuts into at least one chunk is reported as a
    success, whatever the embedding endpoint and the index answer:
    [totalChunks] is the number of chunks, and [chunksProcessed] is a
    number between 0 and [totalChunks]. *)
Theorem processPDF_reports_success filePath fileName index total t text :
  pdfParse E t filePath = Ok (Some text) →
  (100 ≤ length (trim text))%nat →
  let docs := createDocuments E text (list_to_map [
        ("filename", VStr fileName); ("source", VStr fileName);
        ("title", VStr (titleOf fileName)) ]) in
  docs ≠ [] →
  ∃ added new,
    processPDF E filePath fileName index total t =
      (Ok (PdfOutcome true fileName (Some added) (Some (length docs)) None), t ++ new)
    ∧ (added ≤ length docs)%nat.
Proof.
  intros Hparse Hlong docs Hdocs.
  unfold processPDF, try_catch. unfold_monad. unfold parsePdf, remote. rewrite Hparse.
  fold docs.
  assert (Ht : truthy (VStr text) = true).
  { destruct text; [simpl in Hlong; lia|done]. }
  rewrite Ht. replace (length (trim text) <? 100)%nat with false
    by (symmetry; apply Nat.ltb_ge; lia).
  replace (length docs =? 0)%nat with false
    by (symmetry; apply Nat.eqb_neq; by destruct docs).
  cbn [negb orb].
  destruct (chunkLoop_ids E fileName docs (strides CHUNK_BATCH_SIZE (length docs)) 0%nat
              (t ++ [ParsePdf filePath (Ok (Some text))]) (strides_lt _ _))
    as (added & new & -> & Hle & _).
  rewrite length_batchIds_strides in Hle.
  exists added, (ParsePdf filePath (Ok (Some text)) :: new).
  rewrite <- app_assoc. split; [done|lia].
Qed.
End processPDF_outcomes.

Lemma processPDF_turns_away_witness :
  Ingest.processPDF downWorld (lit "pdfs/empty.PDF") (lit "empty.PDF") 0 1 [] =
    (Ok (Ingest.PdfOutcome false (lit "empty.PDF") (Some 0%nat) None
           (Some (lit "No significant text found in PDF"))),
     [] ++ [ParsePdf (lit "pdfs/empty.PDF") (pdfParse downWorld [] (lit "pdfs/empty.PDF"))]).
Proof.
  exact (processPDF_turns_away downWorld (lit "pdfs/empty.PDF") (lit "empty.PDF") 0 1 []
           (lit "No significant text found in PDF") eq_refl).
Defined.

Lemma processPDF_reports_success_witness :
  ∃ added new,
    Ingest.processPDF (sampleWorld sampleKey false true noResults elevenChunks)
        (lit "pdfs/case_11.PDF") (lit "case_11.PDF") 0 1 [] =
      (Ok (Ingest.PdfOutcome true (lit "case_11.PDF") (Some added) (Some 11%nat) None),
       [] ++ new)
    ∧ (added ≤ 11)%nat.
Proof.
  apply (processPDF_reports_success (sampleWorld sampleKey false true noResults elevenChunks)
           (lit "pdfs/case_11.PDF") (lit "case_11.PDF") 0 1 [] (mjoin elevenChunks)).
  - reflexivity.
  - vm_compute. lia.
  - discriminate.
Defined.

(** ** Titles and ids *)

Section titles.
Import Ingest.

Lemma replace_go_no_dot p r s :
  (∀ c, c ∈ s → c ≠ 46) → replace_go (46 :: p) r s 0 false = s.
Proof.
  induction s as [|c s IH]; intros Hs; [done|]. cbn [replace_go startsWith].
  destruct (N.eqb_spec 46 c) as [<-|_].
  - destruct (Hs 46); [left|done].
  - simpl. f_equal. apply IH. intros c' Hc'. apply Hs. by right.
Qed.

Lemma replace_go_prefix_no_dot p r a b :
  (∀ c, c ∈ a → c ≠ 46) →
  replace_go (46 :: p) r (a ++ b) 0 false = a ++ replace_go (46 :: p) r b 0 false.
Proof.
  induction a as [|c a IH]; intros Ha; [done|].
  rewrite <- app_comm_cons. cbn [replace_go startsWith].
  destruct (N.eqb_spec 46 c) as [<-|_].
  - destruct (Ha 46); [left|done].
  - simpl. f_equal. apply IH. intros c' Hc'. apply Ha. by right.
Qed.

(** X9. For a file name made of a base without a dot and the upper-case
    extension [.PDF], the title is the base with every underscore turned
    into a space: no extension and no underscore is left. *)
Theorem titleOf_upper_case_extension base :
  (∀ c, c ∈ base → c ≠ 46) →
  titleOf (base ++ lit ".PDF") = replaceAllChar 95 (lit " ") base
  ∧ length (titleOf (base ++ lit ".PDF")) = length base
  ∧ 95 ∉ titleOf (base ++ lit ".PDF").
Proof.
  intros Hbase.
  assert (Htitle : titleOf (base ++ lit ".PDF") = replaceAllChar 95 (lit " ") base).
  { unfold titleOf, replace. change (lit ".PDF") with (46 :: lit "PDF").
    rewrite replace_go_prefix_no_dot by done. simpl. by rewrite app_nil_r. }
  rewrite Htitle. split; [done|]. clear. unfold replaceAllChar. split.
  - induction base as [|c base IH]; [done|]. rewrite bind_cons, length_app, IH.
    by destruct (c =? 95).
  - induction base as [|c base IH]; [by apply not_elem_of_nil|].
    rewrite bind_cons. intros [Hin|Hin]%elem_of_app; [|done].
    destruct (N.eqb_spec c 95) as [->|Hc].
    + by apply list_elem_of_singleton in Hin.
    + apply list_elem_of_singleton in Hin. done.
Qed.

Lemma titleOf_upper_case_extension_witness :
  titleOf (lit "smith_v_jones" ++ lit ".PDF") = replaceAllChar 95 (lit " ") (lit "smith_v_jones")
  ∧ length (titleOf (lit "smith_v_jones" ++ lit ".PDF")) = length (lit "smith_v_jones")
  ∧ 95 ∉ titleOf (lit "smith_v_jones" ++ lit ".PDF").
Proof.
  apply (titleOf_upper_case_extension (lit "smith_v_jones")).
  intros c Hc Heq. subst c. vm_compute in Hc.
  repeat (apply elem_of_cons in Hc as [Hc|Hc]; [discriminate|]).
  by apply not_elem_of_nil in Hc.
Defined.
End titles.

(** ** The backend loop of the answer composer *)

Section backend_loop.
Context (E : env).
Import Query.

Lemma attemptOutcome_fails r : generationFails r ↔ failed (attemptOutcome r).
Proof.
  unfold generationFails, failed, attemptOutcome.
  destruct r as [[text|]|e]; [destruct (truthy (VStr text))| |].
  - split; [done|]. intros [e He]. done.
  - split; [|done]. intros _. by eexists.
  - split; [|done]. intros _. by eexists.
  - split; [|done]. intros _. by eexists.
Qed.

Lemma attemptOutcome_some r : attemptOutcome r ≠ Ok None.
Proof.
  destruct r as [[text|]|e]; cbn [attemptOutcome]; [|done|done].
  by destruct (truthy (VStr text)).
Qed.

Lemma tryModels_attempt prompt n i model rest t :
  tryModels E prompt n i (model :: rest) t =
  match attemptOutcome (generateContent E t model prompt) with
  | Ok a => (Ok a, t ++ [GenerateCall model prompt (generateContent E t model prompt)])
  | Throw e =>
      if (i =? n - 1)%nat
      then (Throw e, t ++ [GenerateCall model prompt (generateContent E t model prompt)])
      else tryModels E prompt n (S i) rest
             ((t ++ [GenerateCall model prompt (generateContent E t model prompt)])
                ++ [Sleep 1000])
  end.
Proof.
  cbn [tryModels]. unfold try_catch at 1. unfold_monad. unfold axiosGenerate, remote.
  destruct (generateContent E t model prompt) as [[text|]|e]; cbn [attemptOutcome];
    [destruct (truthy (VStr text))| |]; by destruct (i =? n - 1)%nat.
Qed.

Lemma tryModels_trace prompt n :
  ∀ models i t,
    models ≠ [] → (i + length models)%nat = n →
    ∃ fails final model,
      tryModels E prompt n i models t =
        (attemptOutcome final,
         t ++ generateBackoff prompt models fails ++ [GenerateCall model prompt final])
      ∧ (length fails < length models)%nat
      ∧ models !! length fails = Some model
      ∧ Forall generationFails fails
      ∧ (generationFails final → S (length fails) = length models).
Proof.
  induction models as [|model rest IH]; intros i t Hne Hn; [done|].
  rewrite tryModels_attempt. set (r := generateContent E t model prompt).
  destruct (attemptOutcome r) as [a|e] eqn:Hout.
  - exists [], r, model. rewrite Hout. simpl. repeat split; [lia|done|].
    intros Hf%attemptOutcome_fails. rewrite Hout in Hf. by destruct Hf.
  - simpl in Hn. destruct (Nat.eqb_spec i (n - 1)) as [Hi|Hi].
    + exists [], r, model. rewrite Hout. simpl. repeat split; [lia|done|].
      intros _. destruct rest; [done|]. simpl in Hn. lia.
    + destruct (IH (S i) ((t ++ [GenerateCall model prompt r]) ++ [Sleep 1000]))
        as (fails & final & model' & -> & Hlen & Hmodel & Hfails & Hlast).
      { intros ->. simpl in Hn. lia. }
      { lia. }
      exists (r :: fails), final, model'. cbn [generateBackoff length].
      rewrite <- !app_assoc. simpl. repeat split; [lia|done| |].
      * constructor; [|done]. apply attemptOutcome_fails. rewrite Hout. by eexists.
      * intros Hf. by rewrite Hlast.
Qed.

Lemma generateCalls_backoff prompt models fails model final :
  (length fails ≤ length models)%nat →
  generateCalls (generateBackoff prompt models fails ++ [GenerateCall model prompt final])
  = S (length fails).
Proof.
  unfold generateCalls. revert fails.
  induction models as [|m models IH]; intros [|r fails] Hlen; simpl in *; try done; [lia|].
  rewrite IH; [done|lia].
Qed.

Lemma generateBackoff_events prompt models fails :
  Forall (λ ev, isGenerateCall ev = true ∨ ev = Sleep 1000)
    (generateBackoff prompt models fails).
Proof.
  revert models. induction fails as [|r fails IH]; intros [|m models]; simpl; try done.
  constructor; [by left|]. constructor; [by right|]. apply IH.
Qed.

(** The run of [generateAnswer] with a usable credential: the failed calls,
    then the call that ends the loop. *)
Lemma generateAnswer_usable_key context question t :
  keyUnusable (GEMINI_API_KEY E) = false →
  ∃ fails final model,
    generateAnswer E context question t =
      (Ok (Some (match attemptOutcome final with
                 | Ok (Some text) => text
                 | _ => generateStructuredFallback context question
                 end)),
       t ++ generateBackoff (promptFor context question) modelEndpoints fails
         ++ [GenerateCall model (promptFor context question) final])
    ∧ (length fails < 3)%nat
    ∧ modelEndpoints !! length fails = Some model
    ∧ Forall generationFails fails
    ∧ (generationFails final → length fails = 2%nat).
Proof.
  intros Hk. unfold generateAnswer. rewrite Hk.
  destruct (tryModels_trace (promptFor context question) (length modelEndpoints)
              modelEndpoints 0%nat t) as (fails & final & model & Hrun & Hlen & Hmodel & Hfails & Hlast);
    [done|done|].
  exists fails, final, model. unfold try_catch. rewrite Hrun.
  split.
  - destruct (attemptOutcome final) as [[text|]|e] eqn:Hout.
    + done.
    + by apply attemptOutcome_some in Hout.
    + unfold_monad. by repeat case_bool_decide.
  - split; [done|]. split; [done|]. split; [done|].
    intros Hf. apply Hlast in Hf. simpl in Hf. lia.
Qed.

(** [generateAnswer] resolves to a text, whatever the world. *)
Lemma generateAnswer_total context question t :
  ∃ answer new, generateAnswer E context question t = (Ok (Some answer), t ++ new).
Proof.
  destruct (keyUnusable (GEMINI_API_KEY E)) eqn:Hk.
  - exists (noKeyAnswer context question), []. rewrite app_nil_r.
    by apply generateAnswer_no_key.
  - destruct (generateAnswer_usable_key context question t Hk)
      as (fails & final & model & Hrun & _). by eexists _, _.
Qed.

(** X10. First success wins. With a usable credential [generateAnswer]
    calls the backends in their order, each at most once and with the same
    prompt, and sleeps 1000 ms after each failed call but the last; the
    first reply that carries a text ends the loop and its trimmed text is
    the answer; when all three fail the answer is the structured
    fallback. The call never throws. *)
Theorem generateAnswer_first_success context question t :
  keyUnusable (GEMINI_API_KEY E) = false →
  ∃ fails final model,
    let prompt := promptFor context question in
    let new := generateBackoff prompt modelEndpoints fails
                 ++ [GenerateCall model prompt final] in
    generateAnswer E context question t =
      (Ok (Some (match attemptOutcome final with
                 | Ok (Some text) => text
                 | _ => generateStructuredFallback context question
                 end)), t ++ new)
    ∧ modelEndpoints !! length fails = Some model
    ∧ Forall generationFails fails
    ∧ (generationFails final → length fails = 2%nat)
    ∧ generateCalls new = S (length fails)
    ∧ (generateCalls new ≤ 3)%nat.
Proof.
  intros Hk.
  destruct (generateAnswer_usable_key context question t Hk)
    as (fails & final & model & Hrun & Hlen & Hmodel & Hfails & Hlast).
  exists fails, final, model. cbv zeta.
  rewrite generateCalls_backoff by (simpl; lia). repeat split; try done; lia.
Qed.

(** X11. [generateAnswer] always resolves to a text: it never throws and
    never returns [undefined], whatever the credential and whatever the
    backends answer; it makes at most three generation calls and no other
    remote call, and none at all without a usable credential. *)
Theorem generateAnswer_always_answers context question t :
  ∃ answer new,
    generateAnswer E context question t = (Ok (Some answer), t ++ new)
    ∧ (generateCalls new ≤ 3)%nat
    ∧ Forall (λ ev, isGenerateCall ev = true ∨ ev = Sleep 1000) new
    ∧ (keyUnusable (GEMINI_API_KEY E) = true → new = []).
Proof.
  destruct (keyUnusable (GEMINI_API_KEY E)) eqn:Hk.
  - exists (noKeyAnswer context question), []. rewrite app_nil_r.
    split; [by apply generateAnswer_no_key|]. split; [unfold generateCalls; simpl; lia|].
    by split.
  - destruct (generateAnswer_usable_key context question t Hk)
      as (fails & final & model & Hrun & Hlen & _).
    eexists _, _. split; [exact Hrun|].
    rewrite generateCalls_backoff by (simpl; lia). split; [lia|]. split; [|done].
    apply Forall_app. split; [apply generateBackoff_events|by repeat constructor; left].
Qed.
End backend_loop.

Lemma generateAnswer_first_success_witness :
  ∃ fails final model,
    let prompt := Query.promptFor sampleContext (lit "Is the contract void?") in
    let new := generateBackoff prompt Query.modelEndpoints fails
                 ++ [GenerateCall model prompt final] in
    Query.generateAnswer farWorld sampleContext (lit "Is the contract void?") [] =
      (Ok (Some (match attemptOutcome final with
                 | Ok (Some text) => text
                 | _ => Query.generateStructuredFallback sampleContext (lit "Is the contract void?")
                 end)), [] ++ new)
    ∧ Query.modelEndpoints !! length fails = Some model
    ∧ Forall generationFails fails
    ∧ (generationFails final → length fails = 2%nat)
    ∧ generateCalls new = S (length fails)
    ∧ (generateCalls new ≤ 3)%nat.
Proof.
  exact (generateAnswer_first_success farWorld sampleContext (lit "Is the contract void?") []
           eq_refl).
Defined.

(** ** Responses of the query handler *)

Section handler_responses.
Context (E : env).
Import Query.

Lemma server_generateEmbedding_run text t :
  generateEmbedding E text t =
  if keyUnusable (GEMINI_API_KEY E)
  then (Throw (Error (lit "Valid GEMINI_API_KEY is required") None), t)
  else (embedOutcome (embedContent E t text),
        t ++ [EmbedCall text (embedContent E t text)]).
Proof.
  unfold generateEmbedding, try_catch. destruct (keyUnusable _); [done|].
  unfold_monad. unfold axiosEmbed, remote.
  by destruct (embedContent E t text) as [[|values]|e].
Qed.

Lemma queryHandler_valid_question req :
  tooShort (questionOf req) = false →
  ∃ q, requestBody req !! "question" = Some (VStr q) ∧ (3 ≤ length (trim q))%nat.
Proof.
  unfold questionOf. destruct (requestBody req !! "question") as [[| | | |q|]|]; try done.
  simpl. intros H%Nat.ltb_ge. by exists q.
Qed.

(** X12. The query handler never throws: every request gets a response,
    and the response is one of three kinds: status 200 with
    [success = true], an answer and a match count; the validation error
    (status 400); or the generic server error (status 500). *)
Theorem queryHandler_always_responds req t :
  ∃ resp, (queryHandler E req t).1 = Ok resp
    ∧ ((statusCode resp = 200%nat ∧ success (body resp) = true
        ∧ is_Some (answer (body resp)) ∧ is_Some (matches (body resp)))
       ∨ resp = validationError
       ∨ resp = serverError).
Proof.
  destruct (tooShort (questionOf req)) eqn:Hshort.
  { rewrite queryHandler_validation by done. exists validationError. eauto. }
  apply queryHandler_valid_question in Hshort as (q & Hq & Hlen).
  unfold queryHandler, try_catch at 1. rewrite Hq. cbn [default from_option id].
  rewrite (question_accepted q Hlen). unfold_monad.
  destruct (generateEmbedding E q t) as [[emb|e] t1]; [|exists serverError; eauto].
  unfold collection_query, remote.
  destruct (collectionQuery E t1 emb 5) as [results|e]; [|exists serverError; eauto].
  destruct (documents0 results) as [[|doc documents]|];
    try (eexists; split; [reflexivity|]; left; by eauto).
  destruct (length _ =? 0)%nat;
    [eexists; split; [reflexivity|]; left; by eauto|].
  destruct (buildContext _ _ _) as [context|]; [|exists serverError; eauto].
  destruct (generateAnswer_total E context q
              (t1 ++ [IndexQuery emb 5 (Ok results)])) as (a & new & ->).
  eexists. split; [reflexivity|]. left. simpl. eauto.
Qed.

(** X13. With an unusable credential the handler answers every well-formed
    question with the server error, before anything is sent: the fallback
    answers of [generateAnswer] cannot be reached through the handler. *)
Theorem queryHandler_unusable_key req q t :
  keyUnusable (GEMINI_API_KEY E) = true →
  requestBody req !! "question" = Some (VStr q) →
  (3 ≤ length (trim q))%nat →
  queryHandler E req t = (Ok serverError, t).
Proof.
  intros Hk Hq Hlen.
  unfold queryHandler, try_catch at 1. rewrite Hq. cbn [default from_option id].
  rewrite (question_accepted q Hlen). unfold_monad.
  by rewrite server_generateEmbedding_run, Hk.
Qed.

(** X14. The server embeds the question once, without retry. When that
    one call fails, the handler answers with the server error and does not
    query the index; when the index query fails, it answers with the server
    error and calls no generation backend. *)
Theorem queryHandler_remote_failure req q t :
  keyUnusable (GEMINI_API_KEY E) = false →
  requestBody req !! "question" = Some (VStr q) →
  (3 ≤ length (trim q))%nat →
  let call := EmbedCall q (embedContent E t q) in
  match embedOutcome (embedContent E t q) with
  | Throw _ => queryHandler E req t = (Ok serverError, t ++ [call])
  | Ok queryEmbedding =>
      match collectionQuery E (t ++ [call]) queryEmbedding 5 with
      | Throw e =>
          queryHandler E req t =
            (Ok serverError, t ++ [call; IndexQuery queryEmbedding 5 (Throw e)])
      | Ok _ => True
      end
  end.
Proof.
  intros Hk Hq Hlen call.
  unfold queryHandler, try_catch at 1. rewrite Hq. cbn [default from_option id].
  rewrite (question_accepted q Hlen). unfold_monad.
  rewrite server_generateEmbedding_run, Hk. fold call.
  destruct (embedOutcome (embedContent E t q)) as [emb|e]; [|done].
  unfold collection_query, remote.
  destruct (collectionQuery E (t ++ [call]) emb 5) as [results|e]; [done|].
  by rewrite <- app_assoc.
Qed.

Lemma filterIndex_elem_of {A} (p : nat → bool) (l : list A) i x :
  x ∈ filterIndex p i l → x ∈ l.
Proof.
  revert i. induction l as [|y l IH]; intros i; simpl; [done|].
  destruct (p i).
  - intros [->|Hx]%elem_of_cons; [left|right; by eapply IH].
  - intros Hx. right. by eapply IH.
Qed.

(** [indexOf] finds the first position of an element of the array. *)
Lemma arrayIndexOf_first x l :
  ∀ i, arrayIndexOf x l = Some i ↔
       l !! i = Some x ∧ ∀ j, (j < i)%nat → l !! j ≠ Some x.
Proof.
  induction l as [|y l IH]; intros i; simpl.
  - split; [done|]. by intros [? _].
  - case_bool_decide as Hxy.
    + subst y. split.
      * intros [= <-]. split; [done|]. intros j Hj. lia.
      * intros [Hi Hfirst]. destruct i as [|i]; [done|].
        destruct (Hfirst 0%nat); [lia|done].
    + destruct i as [|i].
      * split; [by destruct (arrayIndexOf x l)|]. intros [[= ->] _]. done.
      * split.
        -- intros H. destruct (arrayIndexOf x l) as [k|] eqn:Hk; [|done].
           injection H as ->. destruct (proj1 (IH i) eq_refl) as [Hi Hfirst]. split; [done|].
           intros [|j] Hj; simpl; [congruence|]. apply Hfirst. lia.
        -- intros [Hi Hfirst]. simpl in Hi.
           assert (arrayIndexOf x l = Some i) as ->; [|done].
           apply IH. split; [done|]. intros j Hj. apply (Hfirst (S j)). lia.
Qed.
End handler_responses.

(** ** The context and the match count *)

Section context.
Import Query.

Lemma arrayIndexOf_elem_of x l :
  x ∈ l → ∃ i, arrayIndexOf x l = Some i ∧ (i < length l)%nat.
Proof.
  induction l as [|y l IH]; [by intros ?%not_elem_of_nil|]. simpl.
  case_bool_decide as Hxy; [intros _; exists 0%nat; split; [done|lia]|].
  intros [->|Hx]%elem_of_cons; [done|].
  destruct (IH Hx) as (i & -> & Hi). exists (S i). split; [done|lia].
Qed.

(** X15. Two retrieved chunks with the same text get the same header: the
    metadata is looked up at the first position of the text among the
    returned documents, so a chunk that repeats an earlier text is given
    the title of that earlier chunk. *)
Theorem contextEntry_first_occurrence documents metadatas i first doc :
  documents !! first = Some doc →
  (∀ j, (j < first)%nat → documents !! j ≠ Some doc) →
  contextEntry documents metadatas i doc =
  match metadatas !! first with
  | Some (Some m) =>
      Some (lit "[Document " ++ of_nat (i + 1) ++ lit ": "
            ++ default (lit "undefined") (title m) ++ lit "]" ++ nl
            ++ substring0 800 doc ++ (if (800 <? length doc)%nat then lit "..." else [])
            ++ nl ++ lit "---")
  | _ => None
  end.
Proof.
  intros Hdoc Hfirst. unfold contextEntry.
  assert (arrayIndexOf doc documents = Some first) as -> by by apply arrayIndexOf_first.
  simpl. by destruct (metadatas !! first) as [[m|]|].
Qed.

Lemma contextEntry_first_occurrence_witness :
  contextEntry [lit "same text"; lit "same text"]
    [Some (StoredMetadata (Some (lit "A"))); Some (StoredMetadata (Some (lit "B")))]
    1 (lit "same text") =
  match [Some (StoredMetadata (Some (lit "A"))); Some (StoredMetadata (Some (lit "B")))]
          !! 0%nat with
  | Some (Some m) =>
      Some (lit "[Document " ++ of_nat (1 + 1) ++ lit ": "
            ++ default (lit "undefined") (title m) ++ lit "]" ++ nl
            ++ substring0 800 (lit "same text")
            ++ (if (800 <? length (lit "same text"))%nat then lit "..." else [])
            ++ nl ++ lit "---")
  | _ => None
  end.
Proof.
  apply (contextEntry_first_occurrence [lit "same text"; lit "same text"] _ 1 0 (lit "same text")).
  - reflexivity.
  - intros j Hj. lia.
Defined.

Lemma buildContext_complete documents good metadatas :
  (∀ doc, doc ∈ good → doc ∈ documents) →
  (∀ i, (i < length documents)%nat → ∃ m, metadatas !! i = Some (Some m)) →
  is_Some (buildContext documents good metadatas).
Proof.
  intros Hgood Hmeta. unfold buildContext. apply fmap_is_Some, mapM_is_Some_2.
  apply Forall_lookup. intros k entry Hk. rewrite list_lookup_imap in Hk.
  destruct (take 5 good !! k) as [doc|] eqn:Hdoc; [|done]. injection Hk as <-.
  assert (Hin : doc ∈ documents).
  { apply Hgood. eapply subseteq_take, list_elem_of_lookup_2, Hdoc. }
  destruct (arrayIndexOf_elem_of doc documents Hin) as (i & Hi & Hlt).
  destruct (Hmeta i Hlt) as [m Hm]. unfold contextEntry, compose.
  rewrite Hi. simpl. rewrite Hm. simpl. by eexists.
Qed.

(** X16. When the embedding call and the index query succeed and the
    index returns a metadata object with every document, a well-formed
    question is answered with status 200 and [success = true], [matches]
    being the number of returned documents whose distance is below 1.5 and
    [answer] a text. *)
Theorem queryHandler_succeeds (E : env) req q t queryEmbedding t1 results :
  requestBody req !! "question" = Some (VStr q) →
  (3 ≤ length (trim q))%nat →
  generateEmbedding E q t = (Ok queryEmbedding, t1) →
  collectionQuery E t1 queryEmbedding 5 = Ok results →
  metadataComplete results →
  ∃ text t',
    queryHandler E req t =
      (Ok (Response 200
             (Json true None (Some text)
                (Some (length (goodMatches (default [] (documents0 results))
                                 (distances0 results)))))), t').
Proof.
  intros Hq Hlen Hemb Hquery Hmeta.
  unfold queryHandler, try_catch at 1. rewrite Hq. cbn [default from_option id].
  rewrite (question_accepted q Hlen). unfold_monad. rewrite Hemb.
  unfold collection_query, remote. rewrite Hquery.
  destruct (documents0 results) as [[|doc documents]|] eqn:Hdocs;
    try (eexists _, _; reflexivity).
  cbn [default from_option id].
  destruct (length _ =? 0)%nat eqn:Hgood.
  { apply Nat.eqb_eq in Hgood. rewrite Hgood. by eexists _, _. }
  destruct (buildContext_complete (doc :: documents)
              (goodMatches (doc :: documents) (distances0 results)) (metadatas0 results))
    as [context ->].
  { intros d. apply filterIndex_elem_of. }
  { intros i Hi. by eapply Hmeta. }
  destruct (generateAnswer_total E context q
              (t1 ++ [IndexQuery queryEmbedding 5 (Ok results)])) as (a & new & ->).
  by eexists _, _.
Qed.
End context.

Lemma queryHandler_succeeds_witness :
  ∃ text t',
    Query.queryHandler farWorld (requestWith (VStr (lit "contract disputes"))) [] =
      (Ok (Query.Response 200
             (Query.Json true None (Some text)
                (Some (length (Query.goodMatches
                                 (default [] (documents0
                                    (QueryResults (Some [lit "first text"; lit "second text"])
                                       [Some (StoredMetadata (Some (lit "A")));
                                        Some (StoredMetadata (Some (lit "B")))]
                                       [1.6%float; 2.0%float])))
                                 (distances0
                                    (QueryResults (Some [lit "first text"; lit "second text"])
                                       [Some (StoredMetadata (Some (lit "A")));
                                        Some (StoredMetadata (Some (lit "B")))]
                                       [1.6%float; 2.0%float]))))))), t').
Proof.
  apply (queryHandler_succeeds farWorld (requestWith (VStr (lit "contract disputes")))
           (lit "contract disputes") [] (Some [0.5%float])
           [EmbedCall (lit "contract disputes") (Ok (EmbeddingField (Some [0.5%float])))]).
  - reflexivity.
  - vm_compute. lia.
  - reflexivity.
  - reflexivity.
  - intros documents i [= <-] Hi. simpl in Hi.
    destruct i as [|[|i]]; [by eexists|by eexists|lia].
Defined.

Lemma queryHandler_unusable_key_witness :
  Query.queryHandler (outageWorld None) (requestWith (VStr (lit "contract disputes"))) []
  = (Ok serverError, []).
Proof.
  apply (queryHandler_unusable_key (outageWorld None)
           (requestWith (VStr (lit "contract disputes"))) (lit "contract disputes") []).
  - reflexivity.
  - reflexivity.
  - vm_compute. lia.
Defined.

Lemma queryHandler_remote_failure_witness :
  Query.queryHandler downWorld (requestWith (VStr (lit "contract disputes"))) []
  = (Ok serverError, [] ++ [EmbedCall (lit "contract disputes") (Throw timeout)]).
Proof.
  apply (queryHandler_remote_failure downWorld
           (requestWith (VStr (lit "contract disputes"))) (lit "contract disputes") []).
  - reflexivity.
  - reflexivity.
  - vm_compute. lia.
Defined.

(** ** The [auth] middleware *)

Section auth_middleware.
Context (E : env).
Import Query.

Lemma split_go_char_end c a cur :
  c ∉ a → split_go [c] a 0 cur = [rev cur ++ a].
Proof.
  revert cur. induction a as [|x a IH]; intros cur Hc.
  - by rewrite app_nil_r.
  - cbn [split_go startsWith]. destruct (N.eqb_spec c x) as [->|Hx].
    + destruct Hc. left.
    + rewrite IH by (intros ?; apply Hc; by right). simpl.
      by rewrite <- app_assoc.
Qed.

Lemma split_go_char_app c a b cur :
  c ∉ a → split_go [c] (a ++ c :: b) 0 cur = (rev cur ++ a) :: split_go [c] b 0 [].
Proof.
  revert cur. induction a as [|x a IH]; intros cur Hc.
  - cbn [app split_go startsWith]. rewrite N.eqb_refl. by rewrite app_nil_r.
  - rewrite <- app_comm_cons. cbn [split_go startsWith].
    destruct (N.eqb_spec c x) as [->|Hx].
    + destruct Hc. left.
    + rewrite IH by (intros ?; apply Hc; by right). simpl.
      by rewrite <- app_assoc.
Qed.

(** X17. The middleware lets a request through to [next] only when the
    second space-separated word of its [Authorization] header is not empty
    and [jwt.verify] accepts it. Without a header, with a header of one
    word, or with an empty second word it answers 401 "No token"; with a
    word that [jwt.verify] rejects, 401 "Invalid token"; in both cases
    [next] does not run. The first word (the scheme) is not examined. *)
Theorem auth_lets_through_verified_tokens req (next : M response) t :
  (authorization req = None →
   auth E req next t = (Ok (failure 401 "No token"), t))
  ∧ (∀ header, authorization req = Some header → 32 ∉ header →
       auth E req next t = (Ok (failure 401 "No token"), t))
  ∧ (∀ scheme token rest,
       authorization req = Some (scheme ++ 32 :: token ++ rest) →
       32 ∉ scheme → 32 ∉ token → rest = [] ∨ (∃ r, rest = 32 :: r) →
       auth E req next t =
       if bool_decide (token = []) then (Ok (failure 401 "No token"), t)
       else if jwtVerify E token then next t
       else (Ok (failure 401 "Invalid token"), t)).
Proof.
  unfold auth. change (lit " ") with [32]. unfold split. split; [|split].
  - by intros ->.
  - intros header -> Hh. simpl. by rewrite split_go_char_end.
  - intros scheme token rest -> Hscheme Htoken Hrest. simpl.
    rewrite split_go_char_app by done.
    assert (Hsecond : ((rev [] ++ scheme) :: split_go [32] (token ++ rest) 0 []) !! 1%nat
                      = Some token).
    { destruct Hrest as [->|[r ->]].
      - rewrite app_nil_r. by rewrite split_go_char_end.
      - by rewrite split_go_char_app. }
    match goal with
    | |- context [?l !! ?i] => replace (l !! i) with (Some token) by (symmetry; exact Hsecond)
    end.
    repeat case_bool_decide; simpl; try reflexivity; try congruence.
    destruct (jwtVerify E token); reflexivity.
Qed.
End auth_middleware.

(** ** The selection of the files of a run *)

Section file_selection.
Import Ingest Pipeline.

Lemma le_cons x a y b :
  le (x :: a) (y :: b) ↔ x < y ∨ (x = y ∧ le a b).
Proof.
  unfold le. cbn [ltb].
  destruct (N.ltb_spec y x) as [H1|H1], (N.ltb_spec x y) as [H2|H2].
  - lia.
  - split; [done|]. intros [?|[? _]]; lia.
  - split; [by left|done].
  - split; [intros; right; split; [lia|done]|]. intros [?|[_ ?]]; [lia|done].
Qed.

Lemma le_transitive (a b c : list N) : le a b → le b c → le a c.
Proof.
  revert b c. induction a as [|x a IH]; intros [|y b] [|z c]; try done.
  rewrite !le_cons. intros [Hxy|[Hxy Hab]] [Hyz|[Hyz Hbc]]; [left; lia|left; lia|left; lia|].
  right. split; [lia|]. by eapply IH.
Qed.

Lemma le_or_ge (a b : list N) : le a b ∨ le b a.
Proof.
  revert b. induction a as [|x a IH]; intros [|y b];
    [left; by unfold le|left; by unfold le|right; by unfold le|].
  rewrite !le_cons. destruct (N.lt_trichotomy x y) as [?|[->|?]]; [left; by left| |right; by left].
  destruct (IH b); [left|right]; by right.
Qed.

#[local] Instance le_trans : Transitive le := le_transitive.
#[local] Instance le_total : Total le := le_or_ge.



Example selectFiles_example :
  selectFiles [lit "b.PDF"; lit "notes.txt"; lit "a.pdf"; lit "B.pdf"; lit "g.PDF";
               lit "f.Pdf"; lit "e.pdf"; lit "a.PDF"; lit "pdf"]
  = [lit "B.pdf"; lit "a.PDF"; lit "a.pdf"; lit "b.PDF"; lit "e.pdf"].
Proof. vm_compute. reflexivity. Qed.
End file_selection.

(** ** The batches of files and the counters of a run *)

Section file_batches.
Import Ingest Pipeline.

Lemma batches_cover step :
  (0 < step)%nat →
  ∀ n (l : list jsstring) k,
    length l = n →
    mjoin ((λ i, imap (λ idx f, ((k + i + idx)%nat, f)) (take step (drop i l)))
             <$> strides step n)
    = imap (λ j f, ((k + j)%nat, f)) l.
Proof.
  intros Hstep n. induction (lt_wf n) as [n _ IH]. intros l k Hn.
  rewrite strides_step by done. destruct (Nat.eqb_spec n 0) as [->|Hpos].
  { by destruct l. }
  rewrite fmap_cons, <- list_fmap_compose. cbn [mjoin list_join].
  change (list_join ?x) with (mjoin x).
  assert (Hrest : ((λ i, imap (λ idx f, ((k + i + idx)%nat, f)) (take step (drop i l)))
                     ∘ Nat.add step) <$> strides step (n - step)
                  = (λ i, imap (λ idx f, ((k + step + i + idx)%nat, f))
                            (take step (drop i (drop step l))))
                      <$> strides step (n - step)).
  { apply list_fmap_ext. intros _ i _. unfold compose. rewrite drop_drop.
    apply imap_ext. intros idx f _. f_equal. lia. }
  rewrite Hrest, (IH (n - step)%nat) by (rewrite ?length_drop; lia).
  rewrite <- (take_drop step l) at 3. rewrite imap_app. f_equal.
  - apply imap_ext. intros idx f _. f_equal. lia.
  - destruct (Nat.le_gt_cases step n) as [Hge|Hlt].
    + apply imap_ext. intros idx f _. f_equal. rewrite length_take. lia.
    + rewrite drop_ge by lia. done.
Qed.

Lemma strides_multiples step :
  (0 < step)%nat →
  ∀ n, strides step n = (λ k, (k * step)%nat) <$> seq 0 ((n + (step - 1)) / step).
Proof.
  intros Hstep n. induction (lt_wf n) as [n _ IH].
  rewrite strides_step by done. destruct (Nat.eqb_spec n 0) as [->|Hpos].
  { rewrite Nat.div_small by lia. done. }
  rewrite (IH (n - step)%nat) by lia.
  assert (Hdiv : ((n + (step - 1)) / step = S ((n - step + (step - 1)) / step))%nat).
  { destruct (Nat.le_gt_cases step n) as [Hge|Hlt].
    - replace (n + (step - 1))%nat with ((n - step + (step - 1)) + 1 * step)%nat by lia.
      rewrite Nat.div_add by lia. lia.
    - replace (n - step + (step - 1))%nat with (step - 1)%nat by lia.
      rewrite (Nat.div_small (step - 1)) by lia.
      replace (n + (step - 1))%nat with ((n - 1) + 1 * step)%nat by lia.
      rewrite Nat.div_add, Nat.div_small by lia. done. }
  rewrite Hdiv. cbn [seq fmap list_fmap]. f_equal.
  rewrite <- fmap_S_seq, <- !list_fmap_compose.
  apply list_fmap_ext. intros _ j _. unfold compose. lia.
Qed.

(** X19. The batches of a run hold every selected file exactly once, in
    order, each with its position in the list; every batch has one or two
    files; there are [Math.ceil(n / BATCH_SIZE)] batches and their numbers
    as printed run from 1 to that count. *)
Theorem fileBatches_spec allFiles :
  mjoin (fileBatches allFiles) = imap (λ j file, (j, file)) allFiles
  ∧ Forall (λ batch, (1 ≤ length batch ≤ BATCH_SIZE)%nat) (fileBatches allFiles)
  ∧ length (fileBatches allFiles) = totalBatches allFiles
  ∧ batchNumber <$> strides BATCH_SIZE (length allFiles)
    = seq 1 (totalBatches allFiles).
Proof.
  unfold fileBatches, totalBatches. split; [|split; [|split]].
  - apply (batches_cover BATCH_SIZE ltac:(unfold BATCH_SIZE; lia)
             (length allFiles) allFiles 0%nat eq_refl).
  - apply Forall_fmap, Forall_forall. intros i Hi. unfold compose, fileBatch.
    pose proof (strides_lt BATCH_SIZE (length allFiles)) as Hlt.
    rewrite Forall_forall in Hlt. apply Hlt in Hi.
    rewrite length_imap, length_take, length_drop. unfold BATCH_SIZE. lia.
  - rewrite length_fmap, strides_multiples by (unfold BATCH_SIZE; lia).
    by rewrite length_fmap, length_seq.
  - rewrite strides_multiples by (unfold BATCH_SIZE; lia).
    rewrite <- list_fmap_compose, <- fmap_S_seq.
    apply list_fmap_ext. intros _ k _. unfold compose, batchNumber.
    rewrite Nat.div_mul by (unfold BATCH_SIZE; lia). lia.
Qed.

Lemma track_fold st results :
  let st' := foldl track st results in
  processedCount st' = (processedCount st + length results)%nat
  ∧ successLog st' = successLog st ++ List.filter success results
  ∧ errorLog st' = errorLog st ++ List.filter (λ r, negb (success r)) results
  ∧ totalChunksAdded st' =
    foldl plus (totalChunksAdded st) (chunksProcessed <$> List.filter success results).
Proof.
  revert st. induction results as [|r results IH]; intros st; simpl.
  - by rewrite Nat.add_0_r, !app_nil_r.
  - destruct (IH (track st r)) as (-> & -> & -> & ->). unfold track.
    destruct (success r); simpl; rewrite <- ?app_assoc; repeat split; try done; lia.
Qed.

(** X20. The counters of a run count every document once: after any
    batches, [processedCount] is the number of results, [successLog] holds
    the successes and [errorLog] the failures, each in order of arrival, so
    [processedCount] is the sum of their lengths; and [totalChunksAdded]
    is the sum of [chunksProcessed] over the successes only. *)
Theorem trackBatches_spec batches :
  let results := mjoin batches in
  let st := trackBatches initialTracking batches in
  processedCount st = length results
  ∧ successLog st = List.filter success results
  ∧ errorLog st = List.filter (λ r, negb (success r)) results
  ∧ processedCount st = (length (successLog st) + length (errorLog st))%nat
  ∧ totalChunksAdded st = foldl plus (Some 0%nat) (chunksProcessed <$> successLog st).
Proof.
  intros results st.
  assert (Hst : st = foldl track initialTracking results).
  { unfold st, results, trackBatches. generalize initialTracking.
    induction batches as [|b batches IH]; intros st0; [done|].
    cbn [foldl mjoin list_join]. change (list_join ?x) with (mjoin x).
    by rewrite foldl_app, IH. }
  destruct (track_fold initialTracking results) as (Hc & Hs & He & Ht).
  cbv zeta in Hc, Hs, He, Ht. rewrite <- Hst in Hc, Hs, He, Ht. simpl in Hc, Hs, He, Ht.
  rewrite Hc, Hs, He, Ht. repeat split; try done.
  clear. induction results as [|r results IH]; [done|]. simpl.
  destruct (success r); simpl; lia.
Qed.
End file_batches.

(** ** The structured fallback and the first match *)

Section fallback_first_match.
Import Query.










End fallback_first_match.

Section fallback_of_built_context.
Import Query.







End fallback_of_built_context.




